(** * pleroma-fe components: registration form, navigation pins,
      follow suggestions and the emoji/autocomplete input.

    A shallow embedding of the component methods of
    [src/components/registration/registration.js] and
    [src/components/navigation/navigation_pins.js], with the properties
    the specification states about them. *)

From Stdlib Require Import ZArith Lia.
From stdpp Require Import gmap strings list fin_maps.

Local Open Scope Z_scope.

(** ** JavaScript values *)

(** A string value is its sequence of UTF-16 code units: [length],
    [charAt], [substring] and [slice] all count code units. Property
    names stay Rocq strings. *)
Definition code_unit := N.
Abbreviation jsstr := (list code_unit).

Definition lit (s : string) : jsstr :=
  Ascii.N_of_ascii <$> String.list_ascii_of_string s.

(** The values the components handle: primitives, and objects or
    arrays that are only passed on, named by a reference. *)
Inductive val :=
  | VUndefined
  | VNull
  | VBool (b : bool)
  | VNum (z : Z)
  | VStr (s : jsstr)
  | VObject (ref : positive).

Global Instance val_eq_dec : EqDecision val.
Proof. solve_decision. Defined.

(** [ToBoolean] on the values above. *)
Definition truthy (v : val) : bool :=
  match v with
  | VUndefined | VNull => false
  | VBool b => b
  | VNum z => negb (z =? 0)
  | VStr s => negb (bool_decide (s = []))
  | VObject _ => true
  end.

(** [a || b] *)
Definition js_or (a b : val) : val := if truthy a then a else b.

(** A plain object is a finite map from property names to values;
    reading a missing property gives [undefined]. *)
Abbreviation obj := (gmap string val).

Definition prop (o : obj) (k : string) : val := default VUndefined (o !! k).

(** How a promise ends: fulfilled with a value, rejected, or never
    settled. *)
Inductive settled (A : Type) :=
  | Fulfilled (a : A)
  | Rejected
  | Pending.
Arguments Fulfilled {A} a.
Arguments Rejected {A}.
Arguments Pending {A}.

(** * registration.js *)

Module Registration.

(** [data()] *)
Record data := Data {
  user : gmap string val;
  error : val;
  registering : bool
}.

Definition initial : data :=
  {| user := ∅; error := VBool false; registering := false |}.

(** What a parsed response body can be: an object with its
    properties, or another value ([null], a number, a string, ...). *)
Inductive json :=
  | JObject (o : obj)
  | JPrim (v : val).

(** The Fetch response as the component uses it: the [ok] flag and
    the promise returned by [json()]. *)
Record response := Response {
  ok : bool;
  body : settled json
}.

(** Everything the component does that the view, the store, the router
    or the backend can see, in program order. *)
Inductive event :=
  | Write_registering (b : bool)
  | Write_nickname (v : val)
  | Write_error (v : val)
  | Call_register (u : obj)
  | Call_dispatch (action : string) (payload : obj)
  | Call_push (path : string)
  | Call_json
  | Throw_TypeError.

Global Instance event_eq_dec : EqDecision event.
Proof. solve_decision. Defined.

(** Methods run over the component data and append to the trace. *)
Definition M (A : Type) : Type := data → A * data * list event.

Definition ret {A} (a : A) : M A := λ d, (a, d, []).

Definition bind {A B} (m : M A) (k : A → M B) : M B :=
  λ d, let '(a, d1, t1) := m d in
       let '(b, d2, t2) := k a d1 in
       (b, d2, t1 ++ t2).

Global Instance registration_ret : MRet M := @ret.
Global Instance registration_bind : MBind M := λ A B k m, bind m k.

Definition read {A} (f : data → A) : M A := λ d, (f d, d, []).
Definition emit (e : event) : M unit := λ d, (tt, d, [e]).

Definition set_registering (b : bool) : M unit :=
  λ d, (tt, {| user := user d; error := error d; registering := b |},
        [Write_registering b]).

Definition set_nickname (v : val) : M unit :=
  λ d, (tt, {| user := <["nickname" := v]> (user d); error := error d;
               registering := registering d |},
        [Write_nickname v]).

Definition set_error (v : val) : M unit :=
  λ d, (tt, {| user := user d; error := v; registering := registering d |},
        [Write_error v]).

Definition state_of {A} (r : A * data * list event) : data := r.1.2.
Definition trace_of {A} (r : A * data * list event) : list event := r.2.

(** [submit ()], up to the point where [register] has returned its
    promise. *)
Definition submit : M unit :=
  set_registering true ;;
  u ← read user;
  set_nickname (prop u "username") ;;
  u' ← read user;
  emit (Call_register u').

(** The callback given to [register(...).then]. It returns the promise
    [response.json()] when it asked for one. *)
Definition submit_then (r : response) : M (option (settled json)) :=
  if ok r then
    u ← read user;
    emit (Call_dispatch "loginUser" u) ;;
    emit (Call_push "/main/all") ;;
    set_registering false ;;
    ret None
  else
    set_registering false ;;
    emit Call_json ;;
    ret (Some (body r)).

(** [data.error]: reading a property of [null] or [undefined]
    throws. *)
Definition json_prop (p : json) (k : string) : option val :=
  match p with
  | JObject o => Some (prop o k)
  | JPrim VUndefined | JPrim VNull => None
  | JPrim _ => Some VUndefined
  end.

(** The callback given to [response.json().then]. *)
Definition json_then (p : json) : M unit :=
  match json_prop p "error" with
  | Some v => set_error v
  | None => emit Throw_TypeError
  end.

(** A whole registration attempt: [submit], then the callbacks the
    promises run, none when a promise is rejected or stays pending. *)
Definition attempt (reply : settled response) : M unit :=
  submit ;;
  match reply with
  | Fulfilled r =>
      k ← submit_then r;
      match k with
      | Some (Fulfilled p) => json_then p
      | _ => ret tt
      end
  | _ => ret tt
  end.

Definition is_login_or_navigation (e : event) : bool :=
  match e with
  | Call_dispatch _ _ | Call_push _ => true
  | _ => false
  end.

End Registration.

(** * navigation_pins.js: the navigation panel *)

Module NavPanel.

Section WithImports.

(** The properties of a navigation item other than [name] (route,
    icon, label, ...), the current user, and what [filterNavigation]
    returns: none of them is inspected here. *)
Context {Props User Filtered : Type}.

(** An item of the list given to [filterNavigation]. *)
Record item := Item {
  name : string;
  rest : Props
}.

(** What a component property holds: a value of the store, or
    [undefined]. *)
Inductive pval :=
  | PUndefined
  | PVal (v : val)
  | PUser (u : User)
  | PCount (n : nat)
  | PItems (l : list item)
  | PSet (s : gset string).

(** The option object given to [filterNavigation]. *)
Record options := Options {
  hasChats : pval;
  isFederating : pval;
  isPrivate : pval;
  currentUser : pval
}.

(** Imported and not part of these sources: [TIMELINES] and
    [ROOT_ITEMS] (navigation.js), given as their [Object.entries];
    [getListEntries] (lists_menu_content.vue); [filterNavigation]
    (filter.js). *)
Variable TIMELINES : list (string * Props).
Variable ROOT_ITEMS : list (string * Props).

(** The part of the store state the component maps. [lists_state]
    is what [getListEntries] reads. *)
Record store {Lists : Type} := Store {
  users_currentUser : User;
  api_followRequests : list val;
  instance_private : val;
  instance_federating : val;
  instance_pleromaChatMessagesAvailable : val;
  prefs_pinnedNavItems : list string;
  lists_state : Lists
}.
Arguments store : clear implicits.

Context {Lists : Type}.
Variable getListEntries : store Lists → list item.
Variable filterNavigation : list item → options → Filtered.

(** [new Set(state.serverSideStorage.prefsStorage.collections
    .pinnedNavItems)] *)
Definition pinnedItems_of (st : store Lists) : gset string :=
  list_to_set (prefs_pinnedNavItems st).

(** The properties [mapState] defines on the component, by name. *)
Definition mapState (st : store Lists) : gmap string pval :=
  list_to_map [
    ("lists", PItems (getListEntries st));
    ("currentUser", PUser (users_currentUser st));
    ("followRequestCount", PCount (length (api_followRequests st)));
    ("privateMode", PVal (instance_private st));
    ("federating", PVal (instance_federating st));
    ("pleromaChatMessagesAvailable",
       PVal (instance_pleromaChatMessagesAvailable st));
    ("pinnedItems", PSet (pinnedItems_of st))
  ].

(** [this.<name>] inside [pinnedList]. The component has no data and
    no props; besides the mapped names it has only the computed
    properties [getters] and [pinnedList], which [pinnedList] does not
    read. Any other name reads as [undefined]. *)
Definition this (st : store Lists) (k : string) : pval :=
  default PUndefined (mapState st !! k).

(** [this.pinnedItems.has(k)] *)
Definition has (p : pval) (k : string) : bool :=
  match p with
  | PSet s => bool_decide (k ∈ s)
  | _ => false
  end.

Definition items_of (p : pval) : list item :=
  match p with
  | PItems l => l
  | _ => []
  end.

(** [Object.entries({ ...T }).filter(([k]) => this.pinnedItems.has(k))
    .map(([k, v]) => ({ ...v, name: k }))] *)
Definition pinned_entries (st : store Lists) (T : list (string * Props))
  : list item :=
  (λ kv, {| name := kv.1; rest := kv.2 |})
    <$> filter (λ kv, has (this st "pinnedItems") kv.1 = true) T.

(** The first argument of [filterNavigation] in [pinnedList]. *)
Definition pinnedList_items (st : store Lists) : list item :=
  pinned_entries st TIMELINES
  ++ filter (λ k, has (this st "pinnedItems") (name k) = true)
       (items_of (this st "lists"))
  ++ pinned_entries st ROOT_ITEMS.

(** The second argument. *)
Definition pinnedList_options (st : store Lists) : options :=
  {| hasChats := this st "pleromaChatMessagesAvailable";
     isFederating := this st "federating";
     isPrivate := this st "private";
     currentUser := this st "currentUser" |}.

Definition pinnedList (st : store Lists) : Filtered :=
  filterNavigation (pinnedList_items st) (pinnedList_options st).

(** The store with [instance.private] replaced. *)
Definition with_private (v : val) (st : store Lists) : store Lists :=
  {| users_currentUser := users_currentUser st;
     api_followRequests := api_followRequests st;
     instance_private := v;
     instance_federating := instance_federating st;
     instance_pleromaChatMessagesAvailable :=
       instance_pleromaChatMessagesAvailable st;
     prefs_pinnedNavItems := prefs_pinnedNavItems st;
     lists_state := lists_state st |}.

End WithImports.

Arguments item : clear implicits.
Arguments pval : clear implicits.
Arguments options : clear implicits.
Arguments store : clear implicits.

End NavPanel.

(** * navigation_pins.js: follow suggestions *)

Module WhoToFollow.

(** [data ()]: the users shown. *)
Record data := Data {
  users : list obj
}.

(** Calls to the backend and the store. The [externalProfile] call
    carries the index in [users] of the object its callback closes
    over: [users] is only appended to, so the index names the object
    that was pushed. *)
Inductive event :=
  | Call_externalProfile (screen_name : val) (user_index : nat)
  | Commit_addNewUsers (us : list obj).

Definition default_avatar : jsstr := lit "/images/avi.png".

(** The object literal built for one reply entry [i]. *)
Definition make_user (i : obj) : obj :=
  list_to_map [
    ("id", VNum 0);
    ("name", prop i "display_name");
    ("screen_name", prop i "acct");
    ("profile_image_url", js_or (prop i "avatar") (VStr default_avatar))
  ].

(** One round of the [forEach] callback. *)
Definition show_one (d : data * list event) (i : obj) : data * list event :=
  let user := make_user i in
  ({| users := users d.1 ++ [user] |},
   d.2 ++ [Call_externalProfile (prop user "screen_name") (length (users d.1))]).

(** [showWhoToFollow (reply)] *)
Definition showWhoToFollow (reply : list obj) (d : data) : data * list event :=
  foldl show_one (d, []) reply.

(** The callback given to [externalProfile(...).then] for the user at
    [idx]. *)
Definition externalProfile_then (idx : nat) (externalUser : obj) (d : data)
  : data * list event :=
  if negb (truthy (prop externalUser "error")) then
    ({| users := alter (<["id" := prop externalUser "id"]>) idx (users d) |},
     [Commit_addNewUsers [externalUser]])
  else (d, []).

End WhoToFollow.

(** * navigation_pins.js: the emoji and autocomplete input *)

Module EmojiInput.

(** A number as the component computes with it: an integer, or [NaN]
    (what [undefined + n] gives). *)
Inductive num :=
  | NaN
  | Num (z : Z).

Global Instance num_eq_dec : EqDecision num.
Proof. solve_decision. Defined.

Definition num_truthy (n : num) : bool :=
  match n with
  | NaN => false
  | Num z => negb (z =? 0)
  end.

Definition num_add (n : num) (k : Z) : num :=
  match n with
  | NaN => NaN
  | Num z => Num (z + k)
  end.

(** *** String methods *)

(** [.length] of a string or of an array. *)
Definition len {A} (s : list A) : Z := Z.of_nat (length s).

(** An index argument of [substring]: [NaN] counts as 0, and the result
    is clamped to the string. *)
Definition clamp_index (s : jsstr) (n : num) : nat :=
  match n with
  | NaN => 0%nat
  | Num z => Z.to_nat (Z.min (Z.max z 0) (len s))
  end.

(** [s.substring(a, b)], and [s.substring(a)] when [b] is [None]: the
    two indices are clamped and swapped if out of order. *)
Definition substring (s : jsstr) (a : num) (b : option num) : jsstr :=
  let i := clamp_index s a in
  let j := from_option (clamp_index s) (length s) b in
  take (Nat.max i j - Nat.min i j) (drop (Nat.min i j) s).

(** [s.charAt(i)] for an index [i] that is a natural number. *)
Definition charAt (s : jsstr) (i : nat) : jsstr :=
  match s !! i with
  | Some c => [c]
  | None => []
  end.

(** [xs[i]] on an array: [undefined] outside of it. *)
Definition at_index {A} (xs : list A) (i : Z) : option A :=
  if i <? 0 then None else xs !! Z.to_nat i.

(** *** What the component works with *)

(** A suggestion as the [suggest] prop documents it. *)
Record Suggestion := {
  displayText : jsstr;
  replacement : jsstr;
  detailText : option jsstr;
  imageUrl : option jsstr
}.

(** A suggestion as the [suggestions] computed property returns it: the
    properties other than [imageUrl], with [img] and [highlighted]. *)
Record Shown := {
  shown_displayText : jsstr;
  shown_replacement : jsstr;
  shown_detailText : option jsstr;
  img : jsstr;
  shown_highlighted : bool
}.

(** The object [Completion.wordAtPosition] finds. *)
Record Word := {
  word : jsstr;
  start : Z;
  end_ : Z
}.

(** The value of the [wordAtCaret] computed property: [undefined], the
    empty object put in place of a falsy [wordAtPosition] result, or the
    word found. *)
Inductive caret_word :=
  | WUndefined
  | WEmpty
  | WFound (w : Word).

(** The nested input element as the component reads it. *)
Record elm := Elm {
  has_focus : bool;
  selectionStart : Z;
  offsetTop : Z;
  offsetHeight : Z
}.

(** The [target] of a DOM event a method is called with: the nested
    element itself, which is the target of every event the listeners
    of [mounted] receive, or another text field, of which the methods
    read [selectionStart] only. The target is a live object: what
    [selectionStart] gives is read when the method destructures it. *)
Inductive target :=
  | Target_elm
  | Target_other (selection_start : Z).

(** What a timer runs: the callback of [onBlur], which keeps the event
    [onBlur] was called with, or the one of [triggerShowPicker]. *)
Inductive callback :=
  | Cb_blur (e_target : target)
  | Cb_enableClickOutside.

(** The events [mounted] listens to on the element. *)
Definition listened : list string :=
  ["blur"; "focus"; "paste"; "keyup"; "keydown"; "transitionend";
   "compositionupdate"].

(** What the next tick runs: the prop update that follows an emitted
    [input] event (the parent binds [value] with v-model), or the
    callback [insert] and [replaceText] give to [$nextTick]. *)
Inductive job :=
  | Job_value (v : jsstr)
  | Job_place (position : num).

(** What the component does to the outside: the events it emits and
    its calls on the DOM event and on the elements. *)
Inductive effect :=
  | Emit_input (v : jsstr)
  | Emit_sticker_uploaded
  | Emit_sticker_upload_failed
  | Prevent_default
  | Elm_focus
  | Elm_setSelectionRange (from to : num)
  | Panel_top (px : Z)
  | Picker_top (px : Z).

Global Instance effect_eq_dec : EqDecision effect.
Proof. solve_decision. Defined.

(** The component instance together with what it acts on. *)
Record state := State {
  value : jsstr;  (* the [value] prop, bound with v-model *)
  input : option elm;  (* [this.input]: the element [mounted] found *)
  highlighted : Z;
  caret : num;
  focused : bool;
  blurTimeout : option positive;
  showPicker : bool;
  temporarilyHideSuggestions : bool;
  spamMode : bool;
  disableClickOutside : bool;
  refs_panel : bool;  (* whether [$refs.panel] is rendered *)
  refs_picker : bool;  (* whether [$refs.picker] is rendered *)
  listeners : gset string;  (* the events it listens to on the element *)
  timers : gmap positive callback;  (* pending [setTimeout] callbacks *)
  next_timer : positive;  (* the id the next [setTimeout] returns *)
  ticks : list job;  (* what the next tick will run, in order *)
  log : list effect  (* effects so far *)
}.

(** Field updates. *)
Definition set_value (x : jsstr) (s : state) : state :=
  State x (input s) (highlighted s) (caret s) (focused s) (blurTimeout s)
    (showPicker s) (temporarilyHideSuggestions s) (spamMode s)
    (disableClickOutside s) (refs_panel s) (refs_picker s) (listeners s)
    (timers s) (next_timer s) (ticks s) (log s).

Definition set_input (x : option elm) (s : state) : state :=
  State (value s) x (highlighted s) (caret s) (focused s) (blurTimeout s)
    (showPicker s) (temporarilyHideSuggestions s) (spamMode s)
    (disableClickOutside s) (refs_panel s) (refs_picker s) (listeners s)
    (timers s) (next_timer s) (ticks s) (log s).

Definition set_highlighted (x : Z) (s : state) : state :=
  State (value s) (input s) x (caret s) (focused s) (blurTimeout s)
    (showPicker s) (temporarilyHideSuggestions s) (spamMode s)
    (disableClickOutside s) (refs_panel s) (refs_picker s) (listeners s)
    (timers s) (next_timer s) (ticks s) (log s).

Definition set_caret (x : num) (s : state) : state :=
  State (value s) (input s) (highlighted s) x (focused s) (blurTimeout s)
    (showPicker s) (temporarilyHideSuggestions s) (spamMode s)
    (disableClickOutside s) (refs_panel s) (refs_picker s) (listeners s)
    (timers s) (next_timer s) (ticks s) (log s).

Definition set_focused (x : bool) (s : state) : state :=
  State (value s) (input s) (highlighted s) (caret s) x (blurTimeout s)
    (showPicker s) (temporarilyHideSuggestions s) (spamMode s)
    (disableClickOutside s) (refs_panel s) (refs_picker s) (listeners s)
    (timers s) (next_timer s) (ticks s) (log s).

Definition set_blurTimeout (x : option positive) (s : state) : state :=
  State (value s) (input s) (highlighted s) (caret s) (focused s) x
    (showPicker s) (temporarilyHideSuggestions s) (spamMode s)
    (disableClickOutside s) (refs_panel s) (refs_picker s) (listeners s)
    (timers s) (next_timer s) (ticks s) (log s).

Definition set_showPicker (x : bool) (s : state) : state :=
  State (value s) (input s) (highlighted s) (caret s) (focused s)
    (blurTimeout s) x (temporarilyHideSuggestions s) (spamMode s)
    (disableClickOutside s) (refs_panel s) (refs_picker s) (listeners s)
    (timers s) (next_timer s) (ticks s) (log s).

Definition set_temporarilyHideSuggestions (x : bool) (s : state) : state :=
  State (value s) (input s) (highlighted s) (caret s) (focused s)
    (blurTimeout s) (showPicker s) x (spamMode s) (disableClickOutside s)
    (refs_panel s) (refs_picker s) (listeners s) (timers s) (next_timer s)
    (ticks s) (log s).

Definition set_spamMode (x : bool) (s : state) : state :=
  State (value s) (input s) (highlighted s) (caret s) (focused s)
    (blurTimeout s) (showPicker s) (temporarilyHideSuggestions s) x
    (disableClickOutside s) (refs_panel s) (refs_picker s) (listeners s)
    (timers s) (next_timer s) (ticks s) (log s).

Definition set_disableClickOutside (x : bool) (s : state) : state :=
  State (value s) (input s) (highlighted s) (caret s) (focused s)
    (blurTimeout s) (showPicker s) (temporarilyHideSuggestions s)
    (spamMode s) x (refs_panel s) (refs_picker s) (listeners s) (timers s)
    (next_timer s) (ticks s) (log s).

Definition set_listeners (x : gset string) (s : state) : state :=
  State (value s) (input s) (highlighted s) (caret s) (focused s)
    (blurTimeout s) (showPicker s) (temporarilyHideSuggestions s)
    (spamMode s) (disableClickOutside s) (refs_panel s) (refs_picker s) x
    (timers s) (next_timer s) (ticks s) (log s).

Definition set_timers (x : gmap positive callback) (s : state) : state :=
  State (value s) (input s) (highlighted s) (caret s) (focused s)
    (blurTimeout s) (showPicker s) (temporarilyHideSuggestions s)
    (spamMode s) (disableClickOutside s) (refs_panel s) (refs_picker s)
    (listeners s) x (next_timer s) (ticks s) (log s).

Definition set_next_timer (x : positive) (s : state) : state :=
  State (value s) (input s) (highlighted s) (caret s) (focused s)
    (blurTimeout s) (showPicker s) (temporarilyHideSuggestions s)
    (spamMode s) (disableClickOutside s) (refs_panel s) (refs_picker s)
    (listeners s) (timers s) x (ticks s) (log s).

Definition set_ticks (x : list job) (s : state) : state :=
  State (value s) (input s) (highlighted s) (caret s) (focused s)
    (blurTimeout s) (showPicker s) (temporarilyHideSuggestions s)
    (spamMode s) (disableClickOutside s) (refs_panel s) (refs_picker s)
    (listeners s) (timers s) (next_timer s) x (log s).

Definition set_log (x : list effect) (s : state) : state :=
  State (value s) (input s) (highlighted s) (caret s) (focused s)
    (blurTimeout s) (showPicker s) (temporarilyHideSuggestions s)
    (spamMode s) (disableClickOutside s) (refs_panel s) (refs_picker s)
    (listeners s) (timers s) (next_timer s) (ticks s) x.

(** *** Running methods *)

(** A method returns, or throws (a [TypeError] in all cases below);
    what it wrote before throwing stays written. *)
Inductive outcome (A : Type) :=
  | Done (a : A)
  | Thrown.
Arguments Done {A} a.
Arguments Thrown {A}.

Definition M (A : Type) : Type := state → outcome A * state.

Global Instance emoji_ret : MRet M := λ A a s, (Done a, s).

Global Instance emoji_bind : MBind M := λ A B k m s,
  match m s with
  | (Done a, s1) => k a s1
  | (Thrown, s1) => (Thrown, s1)
  end.

Definition read {A} (f : state → A) : M A := λ s, (Done (f s), s).
Definition write (f : state → state) : M unit := λ s, (Done tt, f s).
Definition throw {A} : M A := λ s, (Thrown, s).
Definition skip : M unit := mret tt.
Definition when (b : bool) (m : M unit) : M unit := if b then m else skip.

Definition perform (e : effect) : M unit :=
  write (λ s, set_log (log s ++ [e]) s).

(** The state a handler leaves behind; an exception it throws goes to
    the global error handler and changes nothing more. *)
Definition run (m : M unit) (s : state) : state := (m s).2.

(** A listener the browser calls in the middle of a method: the method
    goes on whether the listener throws or not. *)
Definition dispatch (m : M unit) : M unit := λ s, (Done tt, run m s).

(** An event [ev] on the element: the browser calls the listener [m]
    if [mounted] has added it and [unmounted] has not removed it. *)
Definition deliver (ev : string) (m : M unit) : M unit :=
  heard ← read (λ s, bool_decide (ev ∈ listeners s));
  when heard (dispatch m).

(** [this.input.elm]: reading [elm] of [undefined] throws. *)
Definition input_elm : M elm := λ s,
  match input s with
  | Some el => (Done el, s)
  | None => (Thrown, s)
  end.

Definition setTimeout (cb : callback) : M positive := λ s,
  let id := next_timer s in
  (Done id, set_next_timer (Pos.succ id) (set_timers (<[id := cb]> (timers s)) s)).

Definition clearTimeout (id : positive) : M unit :=
  write (λ s, set_timers (delete id (timers s)) s).

Definition nextTick (j : job) : M unit :=
  write (λ s, set_ticks (ticks s ++ [j]) s).

(** [this.$emit('input', v)]: the parent's v-model handler stores [v],
    and its re-render, queued for the next tick, brings it back as the
    [value] prop. *)
Definition emit_input (v : jsstr) : M unit :=
  perform (Emit_input v) ;; nextTick (Job_value v).

Section Component.

(** Imported and not part of these sources: [Completion.wordAtPosition]
    ([None] for a falsy result) and [Completion.replaceWord], which is
    given whatever [wordAtCaret] is and may throw. *)
Variable wordAtPosition : jsstr → Z → option Word.
Variable replaceWord : jsstr → caret_word → jsstr → outcome jsstr.

(** The [suggest] prop. *)
Variable suggest : jsstr → list Suggestion.

(** **** Computed properties *)

Definition wordAtCaret (s : state) : caret_word :=
  if negb (bool_decide (value s = [])) && num_truthy (caret s) then
    match caret s with
    | Num c =>
        match wordAtPosition (value s) (c - 1) with
        | Some w => WFound w
        | None => WEmpty
        end
    | NaN => WUndefined
    end
  else WUndefined.

Definition textAtCaret (s : state) : jsstr :=
  match wordAtCaret s with
  | WFound w => word w
  | _ => []
  end.

(** The callback of [.map] in [suggestions]. *)
Definition decorate (highlighted : Z) (index : nat) (g : Suggestion) : Shown :=
  {| shown_displayText := displayText g;
     shown_replacement := replacement g;
     shown_detailText := detailText g;
     img := match imageUrl g with
            | Some (c :: u) => c :: u
            | _ => []
            end;
     shown_highlighted := bool_decide (Z.of_nat index = highlighted) |}.

Definition suggestions (s : state) : list Shown :=
  let firstchar := charAt (textAtCaret s) 0 in
  if bool_decide (textAtCaret s = firstchar) then []
  else
    let matchedSuggestions := suggest (textAtCaret s) in
    if len matchedSuggestions <=? 0 then []
    else imap (decorate (highlighted s)) (take 5 matchedSuggestions).

Definition showSuggestions (s : state) : bool :=
  focused s
  && (0 <? len (suggestions s))
  && negb (showPicker s)
  && negb (temporarilyHideSuggestions s).

(** **** Methods *)

(** [e.target.selectionStart]. An event has the element as its target
    only when there is one; the other case is never run and is written
    as an exception. *)
Definition target_selectionStart (e_target : target) : M Z :=
  match e_target with
  | Target_elm => el ← input_elm; mret (selectionStart el)
  | Target_other z => mret z
  end.

(** [setCaret ({ target: { selectionStart } })] *)
Definition setCaret (e_target : target) : M unit :=
  z ← target_selectionStart e_target;
  write (set_caret (Num z)).

Definition resize : M unit :=
  panel ← read refs_panel;
  if negb panel then skip
  else
    el ← input_elm;
    perform (Panel_top (offsetTop el + offsetHeight el)) ;;
    picker ← read refs_picker;
    if (picker : bool) then perform (Picker_top (offsetTop el + offsetHeight el))
    else throw.

Definition triggerShowPicker : M unit :=
  write (set_showPicker true) ;;
  write (set_disableClickOutside true) ;;
  _ ← setTimeout Cb_enableClickOutside;
  skip.

Definition onBlur (e_target : target) : M unit :=
  id ← setTimeout (Cb_blur e_target);
  write (set_blurTimeout (Some id)).

(** The function [onBlur] gives to [setTimeout]. *)
Definition blurred (e_target : target) : M unit :=
  write (set_focused false) ;;
  setCaret e_target ;;
  resize.

Definition onFocus (e_target : target) : M unit :=
  bt ← read blurTimeout;
  match bt with
  | Some id => clearTimeout id ;; write (set_blurTimeout None)
  | None => skip
  end ;;
  sm ← read spamMode;
  when (negb sm) (write (set_showPicker false)) ;;
  write (set_focused true) ;;
  setCaret e_target ;;
  resize ;;
  write (set_temporarilyHideSuggestions false).

(** [this.input.elm.focus()]: an element that has no focus yet takes
    it, and the browser calls at once the [focus] listener, if the
    element has one, with an event on the element. *)
Definition elm_focus : M unit :=
  el ← input_elm;
  perform Elm_focus ;;
  if has_focus el then skip
  else
    write (set_input (Some (Elm true (selectionStart el) (offsetTop el)
                                (offsetHeight el)))) ;;
    deliver "focus" (onFocus Target_elm).

(** [this.input.elm.setSelectionRange(p, p)]: the element shows the
    v-model text and keeps the selection inside it. *)
Definition elm_setSelectionRange (p : num) : M unit :=
  el ← input_elm;
  perform (Elm_setSelectionRange p p) ;;
  v ← read value;
  write (set_input (Some (Elm (has_focus el) (Z.of_nat (clamp_index v p))
                              (offsetTop el) (offsetHeight el)))).

Definition togglePicker : M unit :=
  elm_focus ;;
  sp ← read showPicker;
  write (set_showPicker (negb sp)).

(** A call of the imported [replaceWord]. *)
Definition call_replaceWord (w : caret_word) (r : jsstr) : M jsstr := λ s,
  (replaceWord (value s) w r, s).

Definition replace (r : jsstr) : M unit :=
  w ← read wordAtCaret;
  newValue ← call_replaceWord w r;
  emit_input newValue ;;
  write (set_caret (Num 0)).

Definition insert (insertion : jsstr) (spam : bool) : M unit :=
  v ← read value;
  c ← read caret;
  let newValue := substring v (Num 0) (Some c) ++ insertion ++ substring v c None in
  write (set_spamMode spam) ;;
  emit_input newValue ;;
  c' ← read caret;
  let position := num_add c' (len insertion) in
  nextTick (Job_place position).

(** The function [insert] and [replaceText] give to [$nextTick]. *)
Definition place (position : num) : M unit :=
  elm_focus ;;
  elm_setSelectionRange position ;;
  write (set_caret position).

Definition replaceText (suggestion : option Shown) : M unit :=
  n ← read (λ s, len (suggestions s));
  t ← read textAtCaret;
  if len t =? 1 then skip
  else if (0 <? n) || bool_decide (is_Some suggestion) then
    sugs ← read suggestions;
    h ← read highlighted;
    chosenSuggestion ←
      match suggestion return M Shown with
      | Some g => mret g
      | None => match at_index sugs h with
                | Some g => mret g
                | None => throw
                end
      end;
    let r := shown_replacement chosenSuggestion in
    w ← read wordAtCaret;
    newValue ← call_replaceWord w r;
    emit_input newValue ;;
    write (set_highlighted 0) ;;
    w' ← read wordAtCaret;
    position ←
      match w' return M num with
      | WUndefined => throw
      | WEmpty => mret NaN
      | WFound f => mret (Num (start f + len r))
      end;
    nextTick (Job_place position) ;;
    perform Prevent_default
  else skip.

Definition cycleBackward : M unit :=
  n ← read (λ s, len (suggestions s));
  if 1 <? n then
    h ← read highlighted;
    write (set_highlighted (h - 1)) ;;
    h' ← read highlighted;
    (if h' <? 0 then
       n' ← read (λ s, len (suggestions s));
       write (set_highlighted (n' - 1))
     else skip) ;;
    perform Prevent_default
  else write (set_highlighted 0).

Definition cycleForward : M unit :=
  n ← read (λ s, len (suggestions s));
  if 1 <? n then
    h ← read highlighted;
    write (set_highlighted (h + 1)) ;;
    h' ← read highlighted;
    (if n <=? h' then write (set_highlighted 0) else skip) ;;
    perform Prevent_default
  else write (set_highlighted 0).

Definition onTransition : M unit := resize.

Definition onClick (suggestion : option Shown) : M unit :=
  replaceText suggestion.

Definition onKeyUp (e_target : target) (key : string) : M unit :=
  setCaret e_target ;;
  resize ;;
  write (set_temporarilyHideSuggestions (bool_decide (key = "Escape"))).

Definition onPaste (e_target : target) : M unit :=
  setCaret e_target ;;
  resize.

Definition onKeyDown (ctrlKey shiftKey : bool) (key : string) : M unit :=
  hidden ← read temporarilyHideSuggestions;
  when (negb hidden)
    (when (bool_decide (key = "Tab"))
       (if shiftKey then cycleBackward else cycleForward) ;;
     (if bool_decide (key = "ArrowUp") then cycleBackward
      else when (bool_decide (key = "ArrowDown")) cycleForward) ;;
     when (bool_decide (key = "Enter")) (when (negb ctrlKey) (replaceText None))) ;;
  when (bool_decide (key = "Escape"))
    (hidden' ← read temporarilyHideSuggestions;
     when (negb hidden') elm_focus) ;;
  write (set_showPicker false) ;;
  resize.

(** [onInput] and [onCompositionUpdate] get the text of the target as
    [e.target.value]. *)
Definition onInput (e_target : target) (target_value : jsstr) : M unit :=
  write (set_showPicker false) ;;
  setCaret e_target ;;
  resize ;;
  emit_input target_value.

Definition onCompositionUpdate (e_target : target) (target_value : jsstr)
  : M unit :=
  write (set_showPicker false) ;;
  setCaret e_target ;;
  resize ;;
  emit_input target_value.

Definition onClickOutside : M unit :=
  off ← read disableClickOutside;
  if (off : bool) then skip else write (set_showPicker false).

Definition onStickerUploaded : M unit :=
  write (set_showPicker false) ;;
  perform Emit_sticker_uploaded.

Definition onStickerUploadFailed : M unit :=
  write (set_showPicker false) ;;
  perform Emit_sticker_upload_failed.

(** **** The event loop *)

Definition run_callback (cb : callback) : M unit :=
  match cb with
  | Cb_blur e_target => blurred e_target
  | Cb_enableClickOutside => write (set_disableClickOutside false)
  end.

Definition run_job (j : job) : M unit :=
  match j with
  | Job_value v => write (set_value v)
  | Job_place position => place position
  end.

(** The next tick: the queued jobs run in order, each to its end or to
    its exception. *)
Definition flush (s : state) : state :=
  foldl (λ s' j, run (run_job j) s') (set_ticks [] s) (ticks s).

(** What the template and the parent call. *)
Inductive handler :=
  | H_triggerShowPicker
  | H_togglePicker
  | H_replace (r : jsstr)
  | H_insert (insertion : jsstr) (spam : bool)
  | H_onClick (suggestion : option Shown)
  | H_onTransition
  | H_onKeyUp (e_target : target) (key : string)
  | H_onPaste (e_target : target)
  | H_onKeyDown (ctrlKey shiftKey : bool) (key : string)
  | H_onInput (e_target : target) (target_value : jsstr)
  | H_onCompositionUpdate (e_target : target) (target_value : jsstr)
  | H_onClickOutside
  | H_onStickerUploaded
  | H_onStickerUploadFailed.

Definition handle (h : handler) : M unit :=
  match h with
  | H_triggerShowPicker => triggerShowPicker
  | H_togglePicker => togglePicker
  | H_replace r => replace r
  | H_insert insertion spam => insert insertion spam
  | H_onClick suggestion => onClick suggestion
  | H_onTransition => onTransition
  | H_onKeyUp e_target key => onKeyUp e_target key
  | H_onPaste e_target => onPaste e_target
  | H_onKeyDown ctrlKey shiftKey key => onKeyDown ctrlKey shiftKey key
  | H_onInput e_target v => onInput e_target v
  | H_onCompositionUpdate e_target v => onCompositionUpdate e_target v
  | H_onClickOutside => onClickOutside
  | H_onStickerUploaded => onStickerUploaded
  | H_onStickerUploadFailed => onStickerUploadFailed
  end.

Definition with_focus (b : bool) (el : elm) : elm :=
  Elm b (selectionStart el) (offsetTop el) (offsetHeight el).

(** One turn of the event loop. The element loses focus only when it
    has it and gains it only when it has not, and its [blur] or [focus]
    listener is called if it has one; a timer fires only while it is
    pending. *)
Inductive step : state → state → Prop :=
  | step_blur s el :
      input s = Some el → has_focus el = true →
      step s (run (deliver "blur" (onBlur Target_elm))
                (set_input (Some (with_focus false el)) s))
  | step_focus s el :
      input s = Some el → has_focus el = false →
      step s (run (deliver "focus" (onFocus Target_elm))
                (set_input (Some (with_focus true el)) s))
  | step_timer s id cb :
      timers s !! id = Some cb →
      step s (run (run_callback cb) (set_timers (delete id (timers s)) s))
  | step_tick s :
      step s (flush s)
  | step_handler s h :
      step s (run (handle h) s)
  | step_dom s el sel top height :
      input s = Some el →
      step s (set_input (Some (Elm (has_focus el) sel top height)) s).

Inductive steps : state → state → Prop :=
  | steps_refl s : steps s s
  | steps_step s1 s2 s3 : steps s1 s2 → step s2 s3 → steps s1 s3.

End Component.

(** The listeners [mounted] leaves on the element it found: all of
    [listened], or none when [resize] throws before the first
    [addEventListener] (the panel is rendered without the picker). *)
Definition mounted_listeners (el : option elm) (panel picker : bool)
  : gset string :=
  match el with
  | Some _ => if panel && negb picker then ∅ else list_to_set listened
  | None => ∅
  end.

(** The component right after [mounted]: the fields of [data ()], the
    element [mounted] found and the listeners it added, nothing
    pending, and the effects of [mounted] not counted. *)
Definition mounted_state (v : jsstr) (el : option elm) (panel picker : bool)
  : state :=
  {| value := v; input := el; highlighted := 0; caret := Num 0;
     focused := false; blurTimeout := None; showPicker := false;
     temporarilyHideSuggestions := false; spamMode := false;
     disableClickOutside := false; refs_panel := panel;
     refs_picker := picker;
     listeners := mounted_listeners el panel picker;
     timers := ∅; next_timer := 1%positive;
     ticks := []; log := [] |}.

(** *** Predicates on states *)

(** [triple P m Q E]: started in a state where [P] holds, [m] returns
    [a] in a state where [Q a] holds, or throws in a state where [E]
    holds. *)
Definition triple {A} (P : state → Prop) (m : M A)
    (Q : A → state → Prop) (E : state → Prop) : Prop :=
  ∀ s, P s →
    match m s with
    | (Done a, s') => Q a s'
    | (Thrown, s') => E s'
    end.

(** [m] keeps [P], however it ends. *)
Definition preserves {A} (P : state → Prop) (m : M A) : Prop :=
  triple P m (λ _, P) P.

(** The caret is an index into the text. *)
Definition caret_in_text (s : state) : Prop :=
  ∃ c, caret s = Num c ∧ 0 ≤ c ≤ len (value s).

(** The element is there and the text is [v]. *)
Definition shows (v : jsstr) (s : state) : Prop :=
  is_Some (input s) ∧ value s = v.

(** What [replaceText] leaves behind: nothing new for the next tick; or
    only the emitted text, which happens when the caret is at 0; or the
    emitted text and the new caret, which lies inside that text. *)
Definition replaced (s s1 : state) : Prop :=
  value s1 = value s ∧ caret s1 = caret s ∧ input s1 = input s
  ∧ (ticks s1 = ticks s
     ∨ (∃ nv, caret s = Num 0 ∧ ticks s1 = ticks s ++ [Job_value nv])
     ∨ (∃ nv p, 0 ≤ p ≤ len nv
          ∧ ticks s1 = ticks s ++ [Job_value nv; Job_place (Num p)])).

(** The element has focus. *)
Definition elm_has_focus (s : state) : bool :=
  match input s with
  | Some el => has_focus el
  | None => false
  end.

(** The component listens to [focus] on the element. *)
Definition hears_focus (s : state) : Prop := "focus" ∈ listeners s.

(** The component listens to [focus]; a blur callback is pending only
    as the timer [blurTimeout] names, and only while the element is
    without focus; while the element has focus the component is
    [focused]. *)
Definition focus_inv (s : state) : Prop :=
  hears_focus s
  ∧ (∀ id t, timers s !! id = Some (Cb_blur t) →
             blurTimeout s = Some id ∧ elm_has_focus s = false)
  ∧ (elm_has_focus s = true → focused s = true).

(** The component listens to nothing, is not [focused] and has no blur
    callback pending. *)
Definition unheard (s : state) : Prop :=
  listeners s = ∅
  ∧ focused s = false
  ∧ ∀ id t, timers s !! id ≠ Some (Cb_blur t).

(** No blur callback is pending and the component is [focused]. *)
Definition settled_focus (s : state) : Prop :=
  (∀ id t, timers s !! id ≠ Some (Cb_blur t)) ∧ focused s = true.

(** The state after the first three statements of [onFocus]. *)
Definition focus_taken (s : state) : state :=
  set_focused true
    ((if spamMode s then id else set_showPicker false)
       match blurTimeout s with
       | Some t => set_blurTimeout None (set_timers (delete t (timers s)) s)
       | None => s
       end).

End EmojiInput.

(** * navigation_pins.js: what the pins are chosen from *)

Module NavCatalogue.
Import NavPanel.

Section WithImports.

Context {Props User Lists : Type}.
Variable TIMELINES : list (string * Props).
Variable ROOT_ITEMS : list (string * Props).
Variable getListEntries : store User Lists → list (item Props).

(** [Object.entries({ ...T }).map(([k, v]) => ({ ...v, name: k }))]:
    every entry of an imported table as an item. *)
Definition entries (T : list (string * Props)) : list (item Props) :=
  (λ kv, {| name := kv.1; rest := kv.2 |}) <$> T.

(** Everything a pin can show, in the order [pinnedList] goes through
    it: the timelines, the user's lists, the root items. *)
Definition navigation_items (st : store User Lists) : list (item Props) :=
  entries TIMELINES ++ getListEntries st ++ entries ROOT_ITEMS.

(** The store with other [pinnedNavItems]. *)
Definition with_pins (pins : list string) (st : store User Lists)
  : store User Lists :=
  {| users_currentUser := users_currentUser st;
     api_followRequests := api_followRequests st;
     instance_private := instance_private st;
     instance_federating := instance_federating st;
     instance_pleromaChatMessagesAvailable :=
       instance_pleromaChatMessagesAvailable st;
     prefs_pinnedNavItems := pins;
     lists_state := lists_state st |}.

End WithImports.

End NavCatalogue.

(** * navigation_pins.js: asking for follow suggestions *)

Module WhoToFollowRequest.
Import WhoToFollow.

(** The call [apiService.suggestions({credentials})]; [apiService] is
    imported and not part of these sources. *)
Inductive request :=
  | Call_suggestions (credentials : val).

(** [getWhoToFollow ()], given
    [this.$store.state.users.currentUser.credentials]. *)
Definition getWhoToFollow (credentials : val) : list request :=
  if truthy credentials then [Call_suggestions credentials] else [].

(** [mounted ()] *)
Definition mounted (credentials : val) : list request :=
  getWhoToFollow credentials.

(** The component from [mounted] on: the request, then the callback
    of [suggestions(...).then] when there is a request and it is
    fulfilled. *)
Definition suggest_users (credentials : val) (reply : settled (list obj))
    (d : data) : list request * (data * list event) :=
  (mounted credentials,
   match mounted credentials, reply with
   | _ :: _, Fulfilled entries => showWhoToFollow entries d
   | _, _ => (d, [])
   end).

End WhoToFollowRequest.

(** * navigation_pins.js: the emoji input from [mounted] to [unmounted] *)

Module EmojiInputLifecycle.
Import EmojiInput.

(** A node of the default slot: its tag and, for an element, the DOM
    element behind it. *)
Record slot := Slot {
  tag : string;
  slot_elm : elm
}.

(** [['input', 'textarea'].includes(slot.tag)] *)
Definition is_field (sl : slot) : bool :=
  bool_decide (tag sl = "input") || bool_decide (tag sl = "textarea").

(** [slots.find(f)]: the first node for which [f] holds. *)
Fixpoint find (f : slot → bool) (slots : list slot) : option slot :=
  match slots with
  | [] => None
  | sl :: rest => if f sl then Some sl else find f rest
  end.

(** [mounted ()], given [this.$slots.default] ([None] when there is no
    default slot). An exception in [resize] ends the hook before any
    listener is added. *)
Definition mounted (slots : option (list slot)) (s : state) : state :=
  match slots with
  | None | Some [] => s
  | Some nodes =>
      match find is_field nodes with
      | None => s
      | Some node =>
          match resize (set_input (Some (slot_elm node)) s) with
          | (Done _, s1) =>
              set_listeners (listeners s1 ∪ list_to_set listened) s1
          | (Thrown, s1) => s1
          end
      end
  end.

(** [unmounted ()] *)
Definition unmounted (s : state) : state :=
  match input s with
  | Some _ => set_listeners (listeners s ∖ list_to_set listened) s
  | None => s
  end.

(** The component as created: the fields of [data ()], no listener. *)
Definition created (v : jsstr) (panel picker : bool) : state :=
  mounted_state v None panel picker.

(** The text a job brings as the new [value], if it brings one. *)
Definition job_value (j : job) : option jsstr :=
  match j with
  | Job_value v => Some v
  | Job_place _ => None
  end.

(** What [resize] does in a state: the styles it sets, and whether it
    ends in an exception (the panel is rendered, but the element or the
    picker is missing). *)
Definition resize_effects (s : state) : list effect :=
  if refs_panel s then
    match input s with
    | Some el =>
        Panel_top (offsetTop el + offsetHeight el)
        :: (if refs_picker s
            then [Picker_top (offsetTop el + offsetHeight el)]
            else [])
    | None => []
    end
  else [].

Definition resize_throws (s : state) : bool :=
  refs_panel s
  && match input s with
     | Some _ => negb (refs_picker s)
     | None => true
     end.

End EmojiInputLifecycle.

(** *** EmojiInput: the keys that work on the suggestions *)

Module EmojiInputKeys.
Import EmojiInput.

Section Keys.

Variable wordAtPosition : jsstr → Z → option Word.
Variable suggest : jsstr → list Suggestion.

(** The part of [onKeyDown] that moves the highlight: Tab and
    ArrowDown call [cycleForward], Shift+Tab and ArrowUp call
    [cycleBackward]. *)
Definition key_cycle (shiftKey : bool) (key : string) : M unit :=
  if bool_decide (key = "Tab") then
    if shiftKey then cycleBackward wordAtPosition suggest
    else cycleForward wordAtPosition suggest
  else if bool_decide (key = "ArrowUp") then
    cycleBackward wordAtPosition suggest
  else if bool_decide (key = "ArrowDown") then
    cycleForward wordAtPosition suggest
  else skip.

End Keys.

End EmojiInputKeys.

(** * Instances for the examples *)

Module Demo.
Import NavPanel EmojiInput.

(** A small instance: two timelines, two root items, one user list. *)
Definition demo_store (private : val) : store unit (list string) :=
  {| users_currentUser := tt;
     api_followRequests := [];
     instance_private := private;
     instance_federating := VBool true;
     instance_pleromaChatMessagesAvailable := VBool false;
     prefs_pinnedNavItems := ["home"; "list-7"; "chats"; "gone"];
     lists_state := ["list-7"; "list-9"] |}.

Definition demo_lists (st : store unit (list string)) : list (item nat) :=
  (λ n, {| name := n; rest := 0%nat |}) <$> lists_state st.

(** A [Completion] for which the whole text is one word:
    [wordAtPosition] finds it at every position inside the text, and
    [replaceWord] puts the replacement in place of the code units from
    [start] up to [end]. *)
Definition one_word (v : jsstr) (p : Z) : option Word :=
  if (0 <=? p) && (p <? len v)
  then Some {| word := v; start := 0; end_ := len v |}
  else None.

Definition splice_word (v : jsstr) (w : caret_word) (r : jsstr)
  : outcome jsstr :=
  match w with
  | WFound f =>
      Done (take (Z.to_nat (start f)) v ++ r ++ drop (Z.to_nat (end_ f)) v)
  | WEmpty => Done (v ++ r ++ v)
  | WUndefined => Thrown
  end.

(** Seven suggestions for every word: the word followed by a digit. *)
Definition numbered (t : jsstr) : list Suggestion :=
  (λ n, {| displayText := t ++ [n]; replacement := t ++ [n; n];
           detailText := None; imageUrl := None |})
    <$> [49; 50; 51; 52; 53; 54; 55]%N.

(** The element, without focus, and the component mounted around it
    with the text [":sm"]. *)
Definition field : elm :=
  {| has_focus := false; selectionStart := 3; offsetTop := 10;
     offsetHeight := 20 |}.

Definition fresh : state := mounted_state (lit ":sm") (Some field) true true.

(** The same with the caret after the text, and with the last
    suggestion highlighted. *)
Definition typing : state := set_caret (Num 3) fresh.

Definition typing_last : state := set_highlighted 4 typing.

(** Focus, blur, focus again. *)
Definition focused_once : state :=
  run (onFocus Target_elm) (set_input (Some (with_focus true field)) fresh).

Definition blurred_once : state :=
  run (onBlur Target_elm)
    (set_input (Some (with_focus false (with_focus true field))) focused_once).

Definition focused_again : state :=
  run (onFocus Target_elm)
    (set_input (Some (with_focus true (with_focus false (with_focus true field))))
       blurred_once).

End Demo.

(** * Properties of registration.js *)

Module RegistrationProps.
Import Registration.

Lemma bind_run {A B} (m : M A) (k : A → M B) (d : data) :
  (m ≫= k) d =
    (let '(a, d1, t1) := m d in
     let '(b, d2, t2) := k a d1 in (b, d2, t1 ++ t2)).
Proof. reflexivity. Qed.

Lemma submit_run (d : data) :
  submit d =
    (tt,
     {| user := <["nickname" := prop (user d) "username"]> (user d);
        error := error d;
        registering := true |},
     [Write_registering true;
      Write_nickname (prop (user d) "username");
      Call_register (<["nickname" := prop (user d) "username"]> (user d))]).
Proof. reflexivity. Qed.

Lemma submit_then_rejected_run (r : response) (d : data) :
  ok r = false →
  submit_then r d =
    (Some (body r),
     {| user := user d; error := error d; registering := false |},
     [Write_registering false; Call_json]).
Proof. intros Hok. unfold submit_then. rewrite Hok. reflexivity. Qed.

Lemma submit_then_accepted_run (r : response) (d : data) :
  ok r = true →
  submit_then r d =
    (None,
     {| user := user d; error := error d; registering := false |},
     [Call_dispatch "loginUser" (user d); Call_push "/main/all";
      Write_registering false]).
Proof. intros Hok. unfold submit_then. rewrite Hok. reflexivity. Qed.

(** C2. When [register] resolves with a response whose [ok] is false
    and whose body parses to a payload with a readable [error]
    property, the attempt ends with [registering] false and the
    component's [error] equal to that property; the trace holds no
    [loginUser] dispatch and no router push: after the backend call it
    is exactly the reset of [registering], the [json()] call and the
    write of [error]. *)
Theorem submit_failure_shows_error
    (d : data) (r : response) (p : json) (v : val) :
  ok r = false →
  body r = Fulfilled p →
  json_prop p "error" = Some v →
  let out := attempt (Fulfilled r) d in
  registering (state_of out) = false
  ∧ error (state_of out) = v
  ∧ trace_of out = trace_of (submit d)
                   ++ [Write_registering false; Call_json; Write_error v]
  ∧ filter (λ e, is_login_or_navigation e = true) (trace_of out) = [].
Proof.
  intros Hok Hbody Hprop out. subst out.
  unfold attempt.
  rewrite bind_run, submit_run; cbv beta iota zeta.
  rewrite bind_run, (submit_then_rejected_run r _ Hok), Hbody;
    cbv beta iota zeta.
  unfold json_then. rewrite Hprop.
  unfold state_of, trace_of. cbn.
  repeat split; reflexivity.
Qed.

Lemma submit_failure_shows_error_witness :
  let r := {| ok := false;
              body := Fulfilled
                (JObject {[ "error" := VStr (lit "Email has already been taken") ]}) |} in
  let out := attempt (Fulfilled r) initial in
  registering (state_of out) = false
  ∧ error (state_of out) = VStr (lit "Email has already been taken")
  ∧ trace_of out = trace_of (submit initial)
                   ++ [Write_registering false; Call_json;
                       Write_error (VStr (lit "Email has already been taken"))]
  ∧ filter (λ e, is_login_or_navigation e = true) (trace_of out) = [].
Proof.
  intros r.
  apply (submit_failure_shows_error initial r
           (JObject {[ "error" := VStr (lit "Email has already been taken") ]})
           (VStr (lit "Email has already been taken")));
    reflexivity.
Defined.

(** C8. [submit] first sets [registering], then overwrites
    [user.nickname] with [user.username], and only then calls
    [register] (with the updated user); whatever response the promise
    resolves with, and whatever the data are by then, the callback
    leaves [registering] false. *)
Theorem registering_cleared_on_response (d d' : data) (r : response) :
  trace_of (submit d) =
    [Write_registering true;
     Write_nickname (prop (user d) "username");
     Call_register (user (state_of (submit d)))]
  ∧ registering (state_of (submit d)) = true
  ∧ user (state_of (submit d)) !! "nickname"
    = Some (prop (user d) "username")
  ∧ registering (state_of (submit_then r d')) = false
  ∧ registering (state_of (attempt (Fulfilled r) d)) = false.
Proof.
  rewrite submit_run. cbn.
  split; [reflexivity|]. split; [reflexivity|].
  split; [apply lookup_insert_eq|].
  split.
  - destruct (ok r) eqn:Hok.
    + by rewrite submit_then_accepted_run.
    + by rewrite submit_then_rejected_run.
  - unfold attempt.
    rewrite bind_run, submit_run; cbv beta iota zeta.
    rewrite bind_run.
    destruct (ok r) eqn:Hok.
    + rewrite submit_then_accepted_run by done. reflexivity.
    + rewrite submit_then_rejected_run by done; cbv beta iota zeta.
      destruct (body r) as [p| |]; try reflexivity.
      unfold json_then. destruct (json_prop p "error"); reflexivity.
Qed.

(** Only a response clears the flag: [then] is given no rejection
    handler, so a rejected or pending [register] leaves [registering]
    set. *)
Lemma registering_kept_without_response (d : data) :
  registering (state_of (attempt Rejected d)) = true
  ∧ registering (state_of (attempt Pending d)) = true.
Proof. split; reflexivity. Qed.

Example attempt_accepted :
  trace_of (attempt (Fulfilled {| ok := true; body := Pending |})
              {| user := {[ "username" := VStr (lit "lain") ]};
                 error := VBool false; registering := false |})
  = [Write_registering true;
     Write_nickname (VStr (lit "lain"));
     Call_register {[ "nickname" := VStr (lit "lain");
                      "username" := VStr (lit "lain") ]};
     Call_dispatch "loginUser" {[ "nickname" := VStr (lit "lain");
                                  "username" := VStr (lit "lain") ]};
     Call_push "/main/all";
     Write_registering false].
Proof. vm_compute. reflexivity. Qed.

End RegistrationProps.

(** * Properties of the navigation panel *)

Module NavPanelProps.
Import NavPanel Demo.

Section WithImports.

Context {Props User Filtered Lists : Type}.
Variable TIMELINES ROOT_ITEMS : list (string * Props).
Variable getListEntries : store User Lists → list (item Props).
Variable filterNavigation :
  list (item Props) → options Props User → Filtered.

Abbreviation this := (this getListEntries).
Abbreviation pinnedList_items :=
  (pinnedList_items TIMELINES ROOT_ITEMS getListEntries).
Abbreviation pinnedList_options := (pinnedList_options getListEntries).
Abbreviation pinnedList :=
  (pinnedList TIMELINES ROOT_ITEMS getListEntries filterNavigation).

Lemma this_pinnedItems (st : store User Lists) :
  this st "pinnedItems" = PSet (pinnedItems_of st).
Proof. reflexivity. Qed.

Lemma this_lists (st : store User Lists) :
  this st "lists" = PItems (getListEntries st).
Proof. reflexivity. Qed.

Lemma this_private (st : store User Lists) :
  this st "private" = PUndefined.
Proof. reflexivity. Qed.

Lemma pinned_entries_pinned
    (st : store User Lists) (T : list (string * Props)) :
  Forall (λ e, name e ∈ pinnedItems_of st)
         (pinned_entries getListEntries st T).
Proof.
  unfold pinned_entries. rewrite this_pinnedItems.
  apply Forall_fmap, Forall_forall. intros [k v] Hin.
  apply list_elem_of_filter in Hin as [Hhas _]. cbn in *.
  by apply bool_decide_eq_true in Hhas.
Qed.

(** C6. Every item of the list that [pinnedList] hands to
    [filterNavigation] has its name in the set built from
    [pinnedNavItems], in each of the three segments the list is
    made of: the [TIMELINES] entries, the list entries and the
    [ROOT_ITEMS] entries. *)
Theorem pinnedList_items_pinned (st : store User Lists) :
  pinnedItems_of st = list_to_set (prefs_pinnedNavItems st)
  ∧ Forall (λ e, name e ∈ pinnedItems_of st) (pinnedList_items st).
Proof.
  split; [reflexivity|].
  unfold NavPanel.pinnedList_items.
  apply Forall_app; split; [apply pinned_entries_pinned|].
  apply Forall_app; split; [|apply pinned_entries_pinned].
  rewrite this_pinnedItems, this_lists. cbn.
  apply Forall_forall. intros e Hin.
  apply list_elem_of_filter in Hin as [Hhas _].
  by apply bool_decide_eq_true in Hhas.
Qed.

Lemma this_with_private (v : val) (st : store User Lists) (k : string) :
  getListEntries (with_private v st) = getListEntries st →
  k ≠ "privateMode" →
  this (with_private v st) k = this st k.
Proof.
  intros Hlists Hk. unfold NavPanel.this, mapState.
  rewrite Hlists. cbn [list_to_map foldr uncurry fst snd].
  rewrite !lookup_insert.
  repeat (case_decide; [subst; first [done | reflexivity]|]).
  reflexivity.
Qed.

(** C9. [pinnedList] passes [undefined] as [isPrivate], for every
    store state, because no component property is called [private];
    and a store that differs only in [instance.private] gives the
    same filtered list, as long as the imported [getListEntries]
    does not read that flag. *)
Theorem pinnedList_ignores_private (st : store User Lists) (v : val) :
  (∀ st', getListEntries (with_private v st') = getListEntries st') →
  isPrivate (pinnedList_options st) = PUndefined
  ∧ this st "privateMode" = PVal (instance_private st)
  ∧ pinnedList (with_private v st) = pinnedList st.
Proof.
  intros Hlists. split; [reflexivity|]. split; [reflexivity|].
  unfold NavPanel.pinnedList, NavPanel.pinnedList_items, pinned_entries,
    NavPanel.pinnedList_options.
  by rewrite !(this_with_private v st _ (Hlists st)) by done.
Qed.

End WithImports.

Example demo_pinned_items :
  pinnedList_items [("home", 1%nat); ("public", 2%nat)]
                   [("interactions", 3%nat); ("chats", 4%nat)]
                   demo_lists (demo_store (VBool true))
  = [ {| name := "home"; rest := 1%nat |};
      {| name := "list-7"; rest := 0%nat |};
      {| name := "chats"; rest := 4%nat |} ].
Proof. vm_compute. reflexivity. Qed.

Lemma pinnedList_ignores_private_witness :
  let T := [("home", 1%nat); ("public", 2%nat)] in
  let R := [("interactions", 3%nat); ("chats", 4%nat)] in
  let f := λ (l : list (item nat)) (o : options nat unit), (l, o) in
  isPrivate (pinnedList_options demo_lists (demo_store (VBool true)))
    = PUndefined
  ∧ this demo_lists (demo_store (VBool true)) "privateMode"
    = PVal (VBool true)
  ∧ pinnedList T R demo_lists f (with_private (VBool false) (demo_store (VBool true)))
    = pinnedList T R demo_lists f (demo_store (VBool true)).
Proof.
  intros T R f.
  apply (pinnedList_ignores_private T R demo_lists f
           (demo_store (VBool true)) (VBool false)).
  intros st'. reflexivity.
Defined.

End NavPanelProps.

(** * Properties of the follow suggestions *)

Module WhoToFollowProps.
Import WhoToFollow.

Lemma showWhoToFollow_from (reply : list obj) (acc : data * list event) :
  users (foldl show_one acc reply).1 = users acc.1 ++ (make_user <$> reply).
Proof.
  revert acc. induction reply as [|i reply IH]; intros acc; cbn.
  - by rewrite app_nil_r.
  - rewrite IH. cbn. by rewrite <- app_assoc.
Qed.

Lemma make_user_avatar (i : obj) :
  prop (make_user i) "profile_image_url"
  = js_or (prop i "avatar") (VStr default_avatar).
Proof. reflexivity. Qed.

(** C10. [showWhoToFollow] appends one user per reply entry, in reply
    order, after the users already shown; the user built for an entry
    has the entry's [avatar] as [profile_image_url] when that is a
    non-empty string, and ['/images/avi.png'] when the field is
    missing, [undefined], [null] or the empty string (any other value
    goes through [||] by its truthiness). *)
Theorem showWhoToFollow_avatars (reply : list obj) (d : data) :
  users (showWhoToFollow reply d).1 = users d ++ (make_user <$> reply)
  ∧ length (users (showWhoToFollow reply d).1)
    = (length (users d) + length reply)%nat
  ∧ ∀ i : obj,
      prop (make_user i) "profile_image_url" =
        match i !! "avatar" with
        | Some (VStr (c :: s)) => VStr (c :: s)
        | None | Some VUndefined | Some VNull | Some (VStr []) =>
            VStr (lit "/images/avi.png")
        | Some (VBool b) => if b then VBool true else VStr (lit "/images/avi.png")
        | Some (VNum z) => if z =? 0 then VStr (lit "/images/avi.png") else VNum z
        | Some (VObject r) => VObject r
        end.
Proof.
  assert (Husers : users (showWhoToFollow reply d).1
                   = users d ++ (make_user <$> reply))
    by apply showWhoToFollow_from.
  split; [exact Husers|]. split.
  - by rewrite Husers, length_app, length_fmap.
  - intros i. rewrite make_user_avatar. unfold prop, js_or.
    destruct (i !! "avatar") as [[| |[]|z|[|c s]|r]|]; cbn; try reflexivity.
    by destruct (z =? 0).
Qed.

Example showWhoToFollow_demo :
  (λ u, prop u "profile_image_url")
    <$> users (showWhoToFollow
                 [ {[ "acct" := VStr (lit "a@x"); "avatar" := VStr (lit "/a.png") ]};
                   {[ "acct" := VStr (lit "b@x"); "avatar" := VStr [] ]};
                   {[ "acct" := VStr (lit "c@x") ]} ]
                 {| users := [] |}).1
  = [VStr (lit "/a.png"); VStr (lit "/images/avi.png");
     VStr (lit "/images/avi.png")].
Proof. vm_compute. reflexivity. Qed.

End WhoToFollowProps.

(** * Properties of the emoji input *)

Module EmojiInputProps.
Import EmojiInput.

(** ** Reasoning about methods *)

Lemma triple_ret {A} (P : state → Prop) (a : A) Q E :
  (∀ s, P s → Q a s) → triple P (mret a) Q E.
Proof. intros H s Hs. by apply H. Qed.

Lemma triple_bind {A B} (P : state → Prop) (m : M A) (k : A → M B) R Q E :
  triple P m R E → (∀ a, triple (R a) (k a) Q E) → triple P (m ≫= k) Q E.
Proof.
  intros Hm Hk s Hs. specialize (Hm s Hs).
  unfold mbind, emoji_bind. destruct (m s) as [[a|] s1]; [|done].
  by apply Hk.
Qed.

Lemma triple_weaken {A} (P P' : state → Prop) (m : M A)
    (Q Q' : A → state → Prop) (E E' : state → Prop) :
  triple P' m Q' E' →
  (∀ s, P s → P' s) → (∀ a s, Q' a s → Q a s) → (∀ s, E' s → E s) →
  triple P m Q E.
Proof.
  intros Hm HP HQ HE s Hs. specialize (Hm s (HP s Hs)).
  destruct (m s) as [[a|] s1]; auto.
Qed.

Lemma triple_read {A} (P : state → Prop) (f : state → A) E :
  triple P (read f) (λ a s, P s ∧ a = f s) E.
Proof. intros s Hs. by split. Qed.

Lemma triple_write (P : state → Prop) (f : state → state) Q E :
  (∀ s, P s → Q tt (f s)) → triple P (write f) Q E.
Proof. intros H s Hs. by apply H. Qed.

Lemma triple_throw {A} (P : state → Prop) (Q : A → state → Prop) E :
  (∀ s, P s → E s) → triple P throw Q E.
Proof. intros H s Hs. by apply H. Qed.

Lemma triple_run (P Q : state → Prop) (m : M unit) :
  triple P m (λ _, Q) Q → ∀ s, P s → Q (run m s).
Proof.
  intros Hm s Hs. specialize (Hm s Hs). unfold run.
  by destruct (m s) as [[[]|] s1].
Qed.

Lemma triple_dispatch (P Q E : state → Prop) (m : M unit) :
  triple P m (λ _, Q) Q → triple P (dispatch m) (λ _, Q) E.
Proof. intros Hm s Hs. cbn. by apply (triple_run P Q m). Qed.

Lemma bind_done {A B} (m : M A) (k : A → M B) (s s1 : state) (a : A) :
  m s = (Done a, s1) → (m ≫= k) s = k a s1.
Proof. intros Hm. unfold mbind, emoji_bind. by rewrite Hm. Qed.

Lemma bind_thrown {A B} (m : M A) (k : A → M B) (s s1 : state) :
  m s = (Thrown, s1) → (m ≫= k) s = (Thrown, s1).
Proof. intros Hm. unfold mbind, emoji_bind. by rewrite Hm. Qed.

Lemma preserves_ret {A} (P : state → Prop) (a : A) : preserves P (mret a).
Proof. by apply triple_ret. Qed.

Lemma preserves_skip (P : state → Prop) : preserves P skip.
Proof. apply preserves_ret. Qed.

Lemma preserves_bind {A B} (P : state → Prop) (m : M A) (k : A → M B) :
  preserves P m → (∀ a, preserves P (k a)) → preserves P (m ≫= k).
Proof. intros Hm Hk. by eapply triple_bind. Qed.

Lemma preserves_read {A} (P : state → Prop) (f : state → A) :
  preserves P (read f).
Proof. intros s Hs. done. Qed.

Lemma preserves_throw {A} (P : state → Prop) : preserves P (@throw A).
Proof. by apply triple_throw. Qed.

Lemma preserves_write (P : state → Prop) (f : state → state) :
  (∀ s, P s → P (f s)) → preserves P (write f).
Proof. intros H s Hs. by apply H. Qed.

Lemma preserves_when (P : state → Prop) (b : bool) (m : M unit) :
  preserves P m → preserves P (when b m).
Proof. destruct b; [done|]. intros _. apply preserves_skip. Qed.

Lemma preserves_dispatch (P : state → Prop) (m : M unit) :
  preserves P m → preserves P (dispatch m).
Proof. intros Hm s Hs. cbn. by apply (triple_run P P m). Qed.

Lemma preserves_run (P : state → Prop) (m : M unit) (s : state) :
  preserves P m → P s → P (run m s).
Proof. intros Hm. by apply triple_run. Qed.

Lemma preserves_input_elm (P : state → Prop) : preserves P input_elm.
Proof. intros s Hs. unfold input_elm. by destruct (input s). Qed.

Lemma preserves_deliver (P : state → Prop) (ev : string) (m : M unit) :
  preserves P m → preserves P (deliver ev m).
Proof.
  intros Hm. unfold deliver. apply preserves_bind; [apply preserves_read|].
  intros heard. by apply preserves_when, preserves_dispatch.
Qed.

Lemma deliver_done (ev : string) (m : M unit) (s : state) :
  deliver ev m s = (Done tt, run (deliver ev m) s).
Proof.
  unfold run, deliver. erewrite bind_done by reflexivity.
  by destruct (bool_decide _).
Qed.

Lemma deliver_run (ev : string) (m : M unit) (s : state) :
  run (deliver ev m) s = if bool_decide (ev ∈ listeners s) then run m s else s.
Proof.
  unfold run, deliver. erewrite bind_done by reflexivity.
  by destruct (bool_decide _).
Qed.

Lemma preserves_target_selectionStart (P : state → Prop) (t : target) :
  preserves P (target_selectionStart t).
Proof.
  destruct t; [|by apply preserves_ret].
  apply preserves_bind; [apply preserves_input_elm|].
  intros el. by apply preserves_ret.
Qed.

Lemma preserves_perform (P : state → Prop) (e : effect) :
  (∀ s, P s → P (set_log (log s ++ [e]) s)) → preserves P (perform e).
Proof. apply preserves_write. Qed.

(** [frame] takes a method apart by its syntax, down to the writes,
    and tries to close those: it proves [preserves P m] when [P] looks
    only at fields that [m] leaves alone. *)
Ltac frame_step_with leaf :=
  lazymatch goal with
  | |- preserves _ skip => apply preserves_skip
  | |- preserves _ (mret _) => apply preserves_ret
  | |- preserves _ (read _) => apply preserves_read
  | |- preserves _ throw => apply preserves_throw
  | |- preserves _ input_elm => apply preserves_input_elm
  | |- preserves _ (when _ _) => apply preserves_when
  | |- preserves _ (dispatch _) => apply preserves_dispatch
  | |- preserves _ (deliver _ _) => apply preserves_deliver
  | |- preserves _ (target_selectionStart _) =>
      apply preserves_target_selectionStart
  | |- preserves _ (_ ≫= _) => apply preserves_bind; [|intros ?]
  | |- preserves _ (perform _) => apply preserves_perform; leaf
  | |- preserves _ (write _) => apply preserves_write; leaf
  | |- preserves _ (match ?x with _ => _ end) => destruct x; cbv beta iota
  end.

Ltac frame_with leaf := repeat frame_step_with leaf.

Ltac frame := frame_with ltac:(intros [] ?; cbn in *; try done).

(** ** The suggestion list and cycling through it *)

Section Suggestions.

Variable wordAtPosition : jsstr → Z → option Word.
Variable suggest : jsstr → list Suggestion.

Abbreviation wordAtCaret := (wordAtCaret wordAtPosition).
Abbreviation textAtCaret := (textAtCaret wordAtPosition).
Abbreviation suggestions := (suggestions wordAtPosition suggest).
Abbreviation cycleForward := (cycleForward wordAtPosition suggest).
Abbreviation cycleBackward := (cycleBackward wordAtPosition suggest).

Lemma text_is_firstchar (t : jsstr) :
  bool_decide (t = charAt t 0) = (len t <=? 1).
Proof.
  destruct t as [|c [|c' t]]; [reflexivity| |].
  { change (charAt [c] 0) with [c]. by rewrite bool_decide_eq_true_2. }
  change (charAt (c :: c' :: t) 0) with [c].
  rewrite bool_decide_eq_false_2 by (intros [=]).
  symmetry. apply Z.leb_gt. unfold len. cbn [length]. lia.
Qed.

Lemma no_matches {A} (l : list A) :
  (len l <=? 0) = bool_decide (l = []).
Proof. by destruct l. Qed.

Lemma suggestions_unfold (s : state) :
  suggestions s =
    if (len (textAtCaret s) <=? 1) || bool_decide (suggest (textAtCaret s) = [])
    then []
    else imap (decorate (highlighted s)) (take 5 (suggest (textAtCaret s))).
Proof.
  unfold EmojiInput.suggestions.
  rewrite text_is_firstchar, no_matches.
  by destruct (len _ <=? 1), (bool_decide (suggest _ = [])).
Qed.

(** C5. [suggestions] never has more than 5 entries. It is empty when
    the word at the caret has at most one code unit or [suggest] finds
    nothing for it; otherwise it has one entry for each of the first 5
    results of [suggest] on that word, in their order, each the result
    with [imageUrl] turned into [img] and the [highlighted] flag
    added. *)
Theorem suggestions_bounded (s : state) :
  (length (suggestions s) ≤ 5)%nat
  ∧ suggestions s =
      (if (len (textAtCaret s) <=? 1)
          || bool_decide (suggest (textAtCaret s) = [])
       then []
       else imap (decorate (highlighted s)) (take 5 (suggest (textAtCaret s))))
  ∧ (λ g, (shown_displayText g, shown_replacement g, shown_detailText g))
      <$> suggestions s
    = (if len (textAtCaret s) <=? 1 then []
       else (λ g, (displayText g, replacement g, detailText g))
              <$> take 5 (suggest (textAtCaret s))).
Proof.
  rewrite suggestions_unfold.
  destruct (len (textAtCaret s) <=? 1); cbn [orb]; [by repeat split; cbn; lia|].
  case_bool_decide as Hnil.
  - rewrite Hnil. repeat split. cbn. lia.
  - repeat split.
    + rewrite length_imap, length_take. lia.
    + rewrite fmap_imap, <- imap_const. apply imap_ext. by intros i [] _.
Qed.

Lemma suggestions_length_highlighted (h : Z) (s : state) :
  len (suggestions (set_highlighted h s)) = len (suggestions s).
Proof.
  rewrite !suggestions_unfold.
  change (textAtCaret (set_highlighted h s)) with (textAtCaret s).
  destruct (_ || _); [done|]. unfold len. by rewrite !length_imap.
Qed.

Lemma cycleForward_run (s : state) :
  highlighted (run cycleForward s) =
    if 1 <? len (suggestions s)
    then if len (suggestions s) <=? highlighted s + 1 then 0
         else highlighted s + 1
    else 0.
Proof.
  unfold run, EmojiInput.cycleForward, mbind, emoji_bind, read, write. cbn.
  destruct (1 <? len (suggestions s)); cbn; [|done].
  by destruct (len (suggestions s) <=? highlighted s + 1).
Qed.

Lemma cycleBackward_run (s : state) :
  highlighted (run cycleBackward s) =
    if 1 <? len (suggestions s)
    then if highlighted s - 1 <? 0 then len (suggestions s) - 1
         else highlighted s - 1
    else 0.
Proof.
  unfold run, EmojiInput.cycleBackward, mbind, emoji_bind, read, write. cbn.
  destruct (1 <? len (suggestions s)); cbn; [|done].
  destruct (highlighted s - 1 <? 0); cbn; [|done].
  apply (f_equal (λ n, n - 1)), suggestions_length_highlighted.
Qed.

(** C1. With more than one suggestion, [cycleForward] adds 1 to
    [highlighted] and puts 0 instead when the sum reaches the number of
    suggestions, and [cycleBackward] subtracts 1 and puts the last index
    instead when the difference is negative: from an index inside the
    list both move by one modulo its length. With no suggestion or a
    single one, both set [highlighted] to 0. *)
Theorem cycle_wraps (s : state) :
  let n := len (suggestions s) in
  let h := highlighted s in
  (1 < n →
     highlighted (run cycleForward s) = (if n <=? h + 1 then 0 else h + 1)
     ∧ highlighted (run cycleBackward s) = (if h - 1 <? 0 then n - 1 else h - 1)
     ∧ (0 ≤ h < n →
          highlighted (run cycleForward s) = (h + 1) mod n
          ∧ highlighted (run cycleBackward s) = (h - 1) mod n))
  ∧ (n ≤ 1 →
       highlighted (run cycleForward s) = 0
       ∧ highlighted (run cycleBackward s) = 0).
Proof.
  intros n h. rewrite cycleForward_run, cycleBackward_run.
  fold n h. split.
  - intros Hn. apply Z.ltb_lt in Hn as Hn'. rewrite Hn'.
    split; [done|]. split; [done|]. intros Hh. split.
    + destruct (Z.leb_spec n (h + 1)).
      * replace (h + 1) with n by lia. by rewrite Z_mod_same_full.
      * by rewrite Z.mod_small by lia.
    + destruct (Z.ltb_spec (h - 1) 0).
      * replace (h - 1) with (-1) by lia.
        rewrite <- (Z.mod_small (n - 1) n) by lia.
        replace (-1) with (n - 1 + (-1) * n) by lia.
        by rewrite Z.mod_add by lia.
      * by rewrite Z.mod_small by lia.
  - intros Hn. apply Z.ltb_ge in Hn. by rewrite Hn.
Qed.

End Suggestions.

(** ** The caret: [setCaret], [insert], [replaceText] *)

Lemma substring_prefix (v : jsstr) (c : Z) :
  0 ≤ c ≤ len v →
  substring v (Num 0) (Some (Num c)) = take (Z.to_nat c) v.
Proof.
  intros Hc. unfold substring, clamp_index, len in *. cbn.
  rewrite (Z.max_l c 0), (Z.min_l c) by lia.
  rewrite Z.max_r, Z.min_l by lia. cbn.
  by rewrite Nat.max_r, Nat.sub_0_r by lia.
Qed.

Lemma substring_suffix (v : jsstr) (c : Z) :
  0 ≤ c ≤ len v →
  substring v (Num c) None = drop (Z.to_nat c) v.
Proof.
  intros Hc. unfold substring, clamp_index, len in *. cbn.
  rewrite (Z.max_l c 0), (Z.min_l c) by lia.
  rewrite Nat.min_l, Nat.max_r by lia.
  apply take_ge. rewrite length_drop. lia.
Qed.

Lemma len_app {A} (l k : list A) : len (l ++ k) = len l + len k.
Proof. unfold len. rewrite length_app. lia. Qed.

Lemma len_splice (v r : jsstr) (a b : nat) :
  (a ≤ length v)%nat →
  len (take a v ++ r ++ drop b v) = Z.of_nat a + len r + Z.of_nat (length v - b).
Proof.
  intros Ha. rewrite !len_app. unfold len.
  rewrite length_take, length_drop. lia.
Qed.

Section Caret.

Variable wordAtPosition : jsstr → Z → option Word.
Variable replaceWord : jsstr → caret_word → jsstr → outcome jsstr.
Variable suggest : jsstr → list Suggestion.

Abbreviation wordAtCaret := (wordAtCaret wordAtPosition).
Abbreviation suggestions := (suggestions wordAtPosition suggest).
Abbreviation replaceText := (replaceText wordAtPosition replaceWord suggest).

Lemma preserves_shows_resize (v : jsstr) : preserves (shows v) resize.
Proof. unfold resize. frame. Qed.

Lemma preserves_shows_setCaret (v : jsstr) (t : target) :
  preserves (shows v) (setCaret t).
Proof. unfold setCaret. frame. Qed.

Lemma preserves_shows_onFocus (v : jsstr) (t : target) :
  preserves (shows v) (onFocus t).
Proof.
  unfold onFocus, clearTimeout.
  frame; first [apply preserves_shows_resize | apply preserves_shows_setCaret].
Qed.

Lemma elm_focus_done (v : jsstr) (s : state) :
  shows v s → ∃ s1, elm_focus s = (Done tt, s1) ∧ shows v s1.
Proof.
  intros [[el Hel] Hv]. unfold elm_focus.
  erewrite bind_done by (unfold input_elm; by rewrite Hel).
  erewrite bind_done by reflexivity.
  destruct (has_focus el).
  - eexists. split; [reflexivity|]. split; [by eexists|done].
  - erewrite bind_done by reflexivity.
    eexists. split; [apply deliver_done|].
    apply preserves_run;
      [apply preserves_deliver, preserves_shows_onFocus|].
    split; [by eexists|done].
Qed.

Lemma elm_setSelectionRange_done (p : num) (v : jsstr) (s : state) :
  shows v s → ∃ s1, elm_setSelectionRange p s = (Done tt, s1) ∧ shows v s1.
Proof.
  intros [[el Hel] Hv]. unfold elm_setSelectionRange.
  erewrite bind_done by (unfold input_elm; by rewrite Hel).
  erewrite bind_done by reflexivity.
  erewrite bind_done by reflexivity.
  eexists. split; [reflexivity|]. split; [by eexists|done].
Qed.

Lemma place_run (p : num) (v : jsstr) (s : state) :
  shows v s →
  shows v (run (place p) s) ∧ caret (run (place p) s) = p.
Proof.
  intros Hs. unfold run, place.
  destruct (elm_focus_done v s Hs) as (s1 & Hfocus & Hs1).
  rewrite (bind_done _ _ _ _ _ Hfocus).
  destruct (elm_setSelectionRange_done p v s1 Hs1) as (s2 & Hsel & Hs2).
  rewrite (bind_done _ _ _ _ _ Hsel).
  destruct Hs2 as [Hin Hv]. by destruct s2.
Qed.

Lemma preserves_shows_place (p : num) (v : jsstr) : preserves (shows v) (place p).
Proof.
  intros s Hs. destruct (place_run p v s Hs) as [H _]. unfold run in H.
  by destruct (place p s) as [[[]|] s'].
Qed.

Lemma preserves_input_run_job (j : job) :
  preserves (λ s, is_Some (input s)) (run_job j).
Proof.
  destruct j as [v|p]; cbn.
  - frame.
  - intros s [el Hel].
    destruct (place_run p (value s) s) as [[H _] _]; [by split; [eexists|]|].
    unfold run in H. by destruct (place p s) as [[[]|] s'].
Qed.

Lemma flush_snoc2 (s : state) (old : list job) (j1 j2 : job) :
  ticks s = old ++ [j1; j2] →
  flush s = run (run_job j2) (run (run_job j1) (flush (set_ticks old s))).
Proof.
  intros Hticks. unfold flush. rewrite Hticks.
  change [j1; j2] with ([j1] ++ [j2]). by rewrite app_assoc, !foldl_app.
Qed.

Lemma flush_input (s : state) : is_Some (input s) → is_Some (input (flush s)).
Proof.
  unfold flush. intros Hin.
  assert (Hstart : is_Some (input (set_ticks [] s))) by by destruct s.
  revert Hstart. generalize (set_ticks [] s) as s0.
  induction (ticks s) as [|j l IH]; intros s0 H0; [done|].
  cbn. apply IH. by apply (preserves_run _ _ _ (preserves_input_run_job j)).
Qed.

Lemma insert_run (insertion : jsstr) (spam : bool) (s : state) :
  run (insert insertion spam) s =
    let newValue := substring (value s) (Num 0) (Some (caret s)) ++ insertion
                    ++ substring (value s) (caret s) None in
    set_ticks (ticks s ++ [Job_value newValue;
                            Job_place (num_add (caret s) (len insertion))])
      (set_log (log s ++ [Emit_input newValue]) (set_spamMode spam s)).
Proof.
  unfold run, insert, emit_input, perform, nextTick.
  repeat (erewrite bind_done by reflexivity).
  cbv zeta. unfold write. destruct s. cbn. unfold set_ticks. cbn.
  by rewrite <- (app_assoc _ [_] [_]).
Qed.

Lemma place_unmounted (p : num) (s : state) :
  input s = None → run (place p) s = s.
Proof.
  intros Hin. unfold run, place, elm_focus.
  assert (Hthrow : input_elm s = (Thrown, s))
    by (unfold input_elm; by rewrite Hin).
  by rewrite (bind_thrown _ _ _ _ (bind_thrown _ _ _ _ Hthrow)).
Qed.

Lemma wordAtCaret_ext (s s' : state) :
  value s' = value s → caret s' = caret s → wordAtCaret s' = wordAtCaret s.
Proof. intros Hv Hc. unfold EmojiInput.wordAtCaret. by rewrite Hv, Hc. Qed.

Lemma place_value (p : num) (s : state) :
  value (run (place p) s) = value s.
Proof.
  destruct (input s) as [el|] eqn:Hin.
  - destruct (place_run p (value s) s) as [[_ Hv] _]; [|done].
    split; [by eexists|done].
  - by rewrite place_unmounted.
Qed.

Lemma insert_then_tick (s : state) (insertion : jsstr) (spam : bool) :
  let s1 := run (insert insertion spam) s in
  value (flush s1)
  = substring (value s) (Num 0) (Some (caret s)) ++ insertion
    ++ substring (value s) (caret s) None
  ∧ (is_Some (input s) →
     caret (flush s1) = num_add (caret s) (len insertion)).
Proof.
  intros s1. subst s1. rewrite insert_run. cbv zeta.
  erewrite flush_snoc2 by (by destruct s).
  match goal with |- context [flush ?x] => set (s0 := flush x) end.
  match goal with |- context [Job_value ?nv] => set (newValue := nv) end.
  cbn [run_job]. split.
  - rewrite place_value. by destruct s0.
  - intros Hin.
    assert (H0 : is_Some (input s0)) by (apply flush_input; by destruct s).
    apply place_run with (v := newValue). split; by destruct s0.
Qed.

(** C4. Called with the caret at an index [c] of the text, [insert]
    emits the text with the insertion spliced in at [c]: the code units
    before [c], the insertion, the code units from [c] on. Until the
    next tick the text and the caret are as before; after it the text
    is the emitted one and, on a component that holds its nested
    element, the caret is [c] plus the length of the insertion. *)
Theorem insert_splices
    (s : state) (c : Z) (insertion : jsstr) (spam : bool) :
  caret s = Num c →
  0 ≤ c ≤ len (value s) →
  let newValue :=
    take (Z.to_nat c) (value s) ++ insertion ++ drop (Z.to_nat c) (value s) in
  let s1 := run (insert insertion spam) s in
  log s1 = log s ++ [Emit_input newValue]
  ∧ value s1 = value s
  ∧ caret s1 = Num c
  ∧ value (flush s1) = newValue
  ∧ (is_Some (input s) → caret (flush s1) = Num (c + len insertion)).
Proof.
  intros Hcaret Hc newValue s1.
  destruct (insert_then_tick s insertion spam) as [Hvalue Hplace].
  fold s1 in Hvalue, Hplace.
  rewrite Hcaret, substring_prefix, substring_suffix in Hvalue by done.
  rewrite Hcaret in Hplace.
  assert (Hrun : s1 =
            set_ticks (ticks s ++ [Job_value newValue;
                                    Job_place (Num (c + len insertion))])
              (set_log (log s ++ [Emit_input newValue]) (set_spamMode spam s))).
  { subst s1. rewrite insert_run, Hcaret.
    by rewrite substring_prefix, substring_suffix by done. }
  split; [by rewrite Hrun|].
  split; [by rewrite Hrun|].
  split; [by rewrite Hrun|].
  by split.
Qed.

Lemma wordAtCaret_undefined (s : state) (c : Z) :
  caret s = Num c → 0 ≤ c ≤ len (value s) →
  wordAtCaret s = WUndefined → c = 0.
Proof.
  unfold EmojiInput.wordAtCaret, len. intros -> Hc.
  destruct (value s) as [|u v]; [cbn in Hc; lia|].
  rewrite bool_decide_eq_false_2 by done. cbn.
  destruct (Z.eqb_spec c 0); [done|]. cbn.
  by destruct (wordAtPosition _ _).
Qed.

Lemma wordAtCaret_found (s : state) (f : Word) :
  wordAtCaret s = WFound f →
  ∃ c, caret s = Num c ∧ wordAtPosition (value s) (c - 1) = Some f.
Proof.
  unfold EmojiInput.wordAtCaret.
  destruct (_ && _); [|done]. destruct (caret s) as [|c]; [done|].
  destruct (wordAtPosition _ _) eqn:Hw; [|done]. intros [= <-]. eauto.
Qed.

Lemma wordAtCaret_empty (s : state) (c : Z) :
  caret s = Num c → wordAtCaret s = WEmpty →
  0 < len (value s) ∧ c ≠ 0 ∧ wordAtPosition (value s) (c - 1) = None.
Proof.
  unfold EmojiInput.wordAtCaret, len. intros ->.
  destruct (value s) as [|u v]; [done|].
  rewrite bool_decide_eq_false_2 by done. cbn.
  destruct (Z.eqb_spec c 0); [done|]. cbn.
  destruct (wordAtPosition _ _); [done|]. intros _. split; [lia|done].
Qed.

(** [Completion] is imported and not part of these sources. What is
    assumed of it: every position inside a text has a word, the word
    found lies around the position and inside the text, and
    [replaceWord] puts the replacement in place of the code units from
    [start] up to [end]. *)
Hypothesis word_found :
  ∀ v p, 0 ≤ p < len v → is_Some (wordAtPosition v p).
Hypothesis word_inside :
  ∀ v p w, wordAtPosition v p = Some w →
    0 ≤ start w ≤ p ∧ p < end_ w ≤ len v.
Hypothesis replace_splices :
  ∀ v w r, 0 ≤ start w ≤ end_ w ≤ len v →
    replaceWord v (WFound w) r =
      Done (take (Z.to_nat (start w)) v ++ r ++ drop (Z.to_nat (end_ w)) v).

Lemma replaceText_replaced (suggestion : option Shown) (s : state) (c : Z) :
  caret s = Num c → 0 ≤ c ≤ len (value s) →
  replaced s (run (replaceText suggestion) s).
Proof.
  intros Hcaret Hc.
  assert (Hsame : replaced s s) by (repeat split; by left).
  unfold run, EmojiInput.replaceText.
  do 2 (erewrite bind_done by reflexivity).
  destruct (len _ =? 1); [done|].
  destruct (_ || _); [|done].
  do 2 (erewrite bind_done by reflexivity).
  match goal with
  | |- replaced s ((mbind ?k _) s).2 =>
      assert (Htail : ∀ g, replaced s ((k g) s).2)
  end.
  2: { destruct suggestion as [g|].
       - erewrite bind_done by reflexivity. apply Htail.
       - destruct (at_index _ _) as [g|].
         + erewrite bind_done by reflexivity. apply Htail.
         + by erewrite bind_thrown by reflexivity. }
  intros g. cbv beta.
  erewrite bind_done by reflexivity.
  set (r := shown_replacement g).
  destruct (replaceWord (value s) (wordAtCaret s) r) as [nv|] eqn:Hnv.
  2: { by erewrite bind_thrown by (unfold call_replaceWord; by rewrite Hnv). }
  erewrite bind_done by (unfold call_replaceWord; by rewrite Hnv).
  do 3 (erewrite bind_done by reflexivity).
  erewrite (wordAtCaret_ext s) by by destruct s.
  destruct (wordAtCaret s) as [| |f] eqn:Hw.
  - erewrite bind_thrown by reflexivity.
    apply (wordAtCaret_undefined s c Hcaret Hc) in Hw as ->.
    repeat split; try by destruct s.
    right; left. exists nv. split; [done|by destruct s].
  - destruct (wordAtCaret_empty s c Hcaret Hw) as (Hlen & Hc0 & Hnone).
    destruct (word_found (value s) (c - 1)) as [w Hsome]; [lia|congruence].
  - destruct (wordAtCaret_found s f Hw) as (c' & Hc' & Hf).
    apply word_inside in Hf as Hin.
    rewrite replace_splices in Hnv by lia. injection Hnv as <-.
    do 2 (erewrite bind_done by reflexivity).
    repeat split; try by destruct s.
    right; right.
    exists (take (Z.to_nat (start f)) (value s) ++ r
            ++ drop (Z.to_nat (end_ f)) (value s)), (start f + len r).
    split.
    + unfold len in Hin. rewrite len_splice by lia. unfold len. lia.
    + destruct s. cbn. by rewrite <- (app_assoc _ [_] [_]).
Qed.

Lemma flush_idle (s : state) : ticks s = [] → flush s = s.
Proof. intros Hticks. unfold flush. rewrite Hticks. destruct s. cbn in *. by subst. Qed.

Lemma flush_one (s : state) (j : job) :
  ticks s = [j] → flush s = run (run_job j) (set_ticks [] s).
Proof. intros Hticks. unfold flush. by rewrite Hticks. Qed.

Lemma flush_two (s : state) (j1 j2 : job) :
  ticks s = [j1; j2] →
  flush s = run (run_job j2) (run (run_job j1) (set_ticks [] s)).
Proof. intros Hticks. unfold flush. by rewrite Hticks. Qed.

(** C3. Take a state between two turns of the event loop (no tick is
    pending) whose caret is an index into the text. [setCaret] with an
    event whose target has its [selectionStart] inside the text (the
    element, or any other text field), [insert], and
    [replaceText] on a component that holds its nested element, each
    leave, once the next tick has run, a caret that is an index into the
    text as it then is. *)
Theorem caret_stays_in_text (s : state) :
  caret_in_text s →
  ticks s = [] →
  (∀ t z, target_selectionStart t s = (Done z, s) →
          0 ≤ z ≤ len (value s) →
          caret_in_text (flush (run (setCaret t) s)))
  ∧ (∀ insertion spam, caret_in_text (flush (run (insert insertion spam) s)))
  ∧ (is_Some (input s) →
     ∀ suggestion, caret_in_text (flush (run (replaceText suggestion) s))).
Proof.
  intros (c & Hcaret & Hc) Hticks. split; [|split].
  - intros t z Hz Hsel.
    unfold run, setCaret.
    erewrite bind_done by exact Hz.
    rewrite flush_idle by by destruct s.
    exists z. by destruct s.
  - intros insertion spam.
    destruct (insert_then_tick s insertion spam) as [Hv Hc'].
    rewrite Hcaret, substring_prefix, substring_suffix in Hv by done.
    rewrite Hcaret in Hc'.
    assert (Hlen : len (value (flush (run (insert insertion spam) s)))
                   = len (value s) + len insertion).
    { rewrite Hv, !len_app. unfold len in *.
      rewrite length_take, length_drop. lia. }
    destruct (input s) as [el|] eqn:Hin.
    + exists (c + len insertion). split; [by apply Hc'; eexists|].
      rewrite Hlen. unfold len in *. lia.
    + exists c. split; [|rewrite Hlen; unfold len in *; lia].
      rewrite insert_run, Hticks. cbv zeta.
      erewrite flush_two by reflexivity. cbn [run_job].
      rewrite place_unmounted by by destruct s.
      by destruct s.
  - intros Hin suggestion.
    destruct (replaceText_replaced suggestion s c Hcaret Hc)
      as (Hv & Hcar & Hinp & [Hnone | [(nv & H0 & Hone) | (nv & p & Hp & Htwo)]]).
    + rewrite flush_idle by congruence.
      exists c. split; [congruence|]. by rewrite Hv.
    + rewrite Hticks in Hone. rewrite (flush_one _ _ Hone).
      exists 0. split; [destruct (run _ s); cbn in *; congruence|].
      unfold len. cbn. lia.
    + rewrite Hticks in Htwo. rewrite (flush_two _ _ _ Htwo).
      cbn [run_job].
      destruct (place_run (Num p) nv
                  (run (write (set_value nv))
                     (set_ticks [] (run (replaceText suggestion) s))))
        as [[_ Hv'] Hc'].
      { split; [|by destruct (run _ s)].
        rewrite <- Hinp in Hin. by destruct (run _ s). }
      exists p. split; [done|]. by rewrite Hv'.
Qed.


End Caret.

(** ** Focus and blur *)

Lemma settled_focus_inv (s : state) :
  hears_focus s → settled_focus s → focus_inv s.
Proof.
  intros Hhears [Hnone Hfocused]. split; [done|]. split; [|done].
  intros id t Hid. by destruct (Hnone id t).
Qed.

Lemma onBlur_run (t : target) (s : state) :
  run (onBlur t) s =
    set_blurTimeout (Some (next_timer s))
      (set_next_timer (Pos.succ (next_timer s))
         (set_timers (<[next_timer s := Cb_blur t]> (timers s)) s)).
Proof. reflexivity. Qed.

Lemma onFocus_run (t : target) (s : state) :
  run (onFocus t) s =
    run (setCaret t ;; resize ;; write (set_temporarilyHideSuggestions false))
      (focus_taken s).
Proof.
  unfold run, onFocus, focus_taken, clearTimeout.
  erewrite bind_done by reflexivity.
  destruct (blurTimeout s) as [id|], (spamMode s) eqn:Hspam.
  all: repeat (erewrite bind_done
                 by (unfold when; cbn; try rewrite Hspam; reflexivity)).
  all: reflexivity.
Qed.

Lemma onFocus_tail_keeps (P : state → Prop) (t : target) :
  (∀ s c, P s → P (set_caret c s)) →
  (∀ s l, P s → P (set_log l s)) →
  (∀ s b, P s → P (set_temporarilyHideSuggestions b s)) →
  preserves P
    (setCaret t ;; resize ;; write (set_temporarilyHideSuggestions false)).
Proof.
  intros Hcaret Hlog Hhide. unfold setCaret, resize.
  frame_with ltac:(intros; first [by apply Hlog | by apply Hcaret | by apply Hhide]).
Qed.

Lemma focus_taken_settled (s : state) :
  (∀ id t, timers s !! id = Some (Cb_blur t) → blurTimeout s = Some id) →
  settled_focus (focus_taken s).
Proof.
  intros Hnamed. unfold focus_taken.
  assert (Hgoal : settled_focus
            (set_focused true
               match blurTimeout s with
               | Some t => set_blurTimeout None (set_timers (delete t (timers s)) s)
               | None => s
               end)).
  { split; [|done]. intros id' t' Hid'.
    destruct (blurTimeout s) as [t|] eqn:Ht; cbn in Hid'.
    - destruct (decide (t = id')) as [->|Hne].
      + by rewrite lookup_delete_eq in Hid'.
      + rewrite lookup_delete_ne in Hid' by done.
        apply Hnamed in Hid'. congruence.
    - by apply Hnamed in Hid'. }
  destruct (spamMode s); [done|].
  destruct Hgoal as [Hnone Hfocused]. split; [|done].
  intros id' t'. specialize (Hnone id' t'). by destruct (blurTimeout s).
Qed.

Lemma onFocus_settles (t : target) (s : state) :
  (∀ id t', timers s !! id = Some (Cb_blur t') → blurTimeout s = Some id) →
  settled_focus (run (onFocus t) s).
Proof.
  intros Hnamed. rewrite onFocus_run.
  apply preserves_run; [|by apply focus_taken_settled].
  apply onFocus_tail_keeps; by intros [].
Qed.

Lemma onFocus_listeners (t : target) (s : state) :
  listeners (run (onFocus t) s) = listeners s.
Proof.
  rewrite onFocus_run.
  apply (preserves_run (λ s', listeners s' = listeners s)).
  - apply onFocus_tail_keeps; by intros [].
  - unfold focus_taken. by destruct (blurTimeout s), (spamMode s).
Qed.

Ltac focus_leaf :=
  intros [] ?; unfold focus_inv, hears_focus, elm_has_focus in *;
  cbn in *; try done.

Lemma preserves_focus_elm_focus : preserves focus_inv elm_focus.
Proof.
  intros s Hinv. unfold elm_focus, input_elm.
  destruct (input s) as [el|] eqn:Hin.
  2: { by erewrite bind_thrown by (by rewrite Hin). }
  erewrite bind_done by (by rewrite Hin).
  erewrite bind_done by reflexivity.
  destruct (has_focus el) eqn:Hfocus.
  - revert Hinv. by destruct s.
  - erewrite bind_done by reflexivity.
    rewrite deliver_done. cbn [fst snd]. rewrite deliver_run.
    destruct Hinv as (Hhears & Hnamed & Hfocused).
    rewrite bool_decide_eq_true_2 by (revert Hhears; by destruct s).
    apply settled_focus_inv.
    + unfold hears_focus. rewrite onFocus_listeners.
      revert Hhears. by destruct s.
    + apply onFocus_settles.
      intros id t Hid. apply (Hnamed id t). revert Hid. by destruct s.
Qed.

Lemma preserves_focus_elm_setSelectionRange (p : num) :
  preserves focus_inv (elm_setSelectionRange p).
Proof.
  intros s Hinv. unfold elm_setSelectionRange, input_elm.
  destruct (input s) as [el|] eqn:Hin.
  2: { by erewrite bind_thrown by (by rewrite Hin). }
  erewrite bind_done by (by rewrite Hin).
  do 2 (erewrite bind_done by reflexivity).
  revert Hinv. unfold focus_inv, hears_focus, elm_has_focus.
  destruct s; cbn in *. by rewrite Hin.
Qed.

Lemma preserves_focus_enableTimer :
  preserves focus_inv (setTimeout Cb_enableClickOutside).
Proof.
  intros s (Hhears & Hnamed & Hfocused). cbn.
  split; [by destruct s|]. split; [|by destruct s].
  intros id t Hid.
  assert (Hold : timers s !! id = Some (Cb_blur t)).
  { destruct s; cbn in *. rewrite lookup_insert in Hid.
    by case_decide. }
  revert Hold. clear Hid. intros Hold. apply Hnamed in Hold. by destruct s.
Qed.

Lemma preserves_blurred (t : target) (s : state) :
  focus_inv s ∧ elm_has_focus s = false → focus_inv (run (blurred t) s).
Proof.
  intros Hs.
  apply (preserves_run (λ s, focus_inv s ∧ elm_has_focus s = false)
           (blurred t) s) in Hs as [Hinv _]; [done|].
  unfold blurred, setCaret, resize.
  frame_with ltac:(intros [] [(? & ? & ?) ?];
                   unfold focus_inv, hears_focus, elm_has_focus in *;
                   cbn in *; try done).
  split; [split; [done|split; [done|congruence]]|done].
Qed.

Lemma preserves_focus_delete (id : positive) :
  preserves focus_inv (write (λ s, set_timers (delete id (timers s)) s)).
Proof.
  intros s (Hhears & Hnamed & Hfocused). cbn.
  split; [by destruct s|]. split; [|by destruct s].
  intros id' t Hid'.
  assert (Hold : timers s !! id' = Some (Cb_blur t)).
  { destruct s; cbn in *. rewrite lookup_delete in Hid'. by case_decide. }
  apply Hnamed in Hold. by destruct s.
Qed.

Section Focus.

Variable wordAtPosition : jsstr → Z → option Word.
Variable replaceWord : jsstr → caret_word → jsstr → outcome jsstr.
Variable suggest : jsstr → list Suggestion.

Abbreviation handle := (handle wordAtPosition replaceWord suggest).
Abbreviation step := (step wordAtPosition replaceWord suggest).
Abbreviation steps := (steps wordAtPosition replaceWord suggest).

Lemma preserves_call_replaceWord (P : state → Prop) (w : caret_word) (r : jsstr) :
  preserves P (call_replaceWord replaceWord w r).
Proof. intros s Hs. unfold call_replaceWord. by destruct (replaceWord _ _ _). Qed.

Ltac focus_frame :=
  repeat first
    [ lazymatch goal with
      | |- preserves _ elm_focus => apply preserves_focus_elm_focus
      | |- preserves _ (elm_setSelectionRange _) =>
          apply preserves_focus_elm_setSelectionRange
      | |- preserves _ (setTimeout Cb_enableClickOutside) =>
          apply preserves_focus_enableTimer
      | |- preserves _ (call_replaceWord _ _ _) =>
          apply preserves_call_replaceWord
      end
    | frame_step_with focus_leaf
    | progress unfold EmojiInput.handle, triggerShowPicker, togglePicker,
        replace, insert, onClick, replaceText, onTransition, onKeyUp,
        onPaste, onKeyDown, onInput, onCompositionUpdate, onClickOutside,
        onStickerUploaded, onStickerUploadFailed, cycleBackward,
        cycleForward, emit_input, nextTick, setCaret, resize, place,
        blurred ].

Lemma in_listened_focus : "focus" ∈ (list_to_set listened : gset string).
Proof.
  apply elem_of_list_to_set. unfold listened. rewrite !elem_of_cons. auto.
Qed.

Lemma preserves_focus_handle (h : handler) : preserves focus_inv (handle h).
Proof. destruct h; focus_frame. Qed.

Lemma preserves_focus_run_job (j : job) : preserves focus_inv (run_job j).
Proof. destruct j; cbn [run_job]; focus_frame. Qed.

Lemma focus_inv_flush (s : state) : focus_inv s → focus_inv (flush s).
Proof.
  intros Hinv. unfold flush.
  assert (Hstart : focus_inv (set_ticks [] s)) by (revert Hinv; by destruct s).
  revert Hstart. generalize (set_ticks [] s) as s0.
  induction (ticks s) as [|j l IH]; intros s0 H0; [done|].
  cbn. apply IH. by apply preserves_run; [apply preserves_focus_run_job|].
Qed.

Lemma focus_inv_mounted (v : jsstr) (el : elm) (panel picker : bool) :
  has_focus el = false →
  panel && negb picker = false →
  focus_inv (mounted_state v (Some el) panel picker).
Proof.
  intros Hel Hfine. split; [|split; [|by cbn; rewrite Hel]].
  - unfold hears_focus, mounted_state, mounted_listeners. cbn [listeners].
    rewrite Hfine. apply in_listened_focus.
  - intros id t Hid. cbn in Hid. by rewrite lookup_empty in Hid.
Qed.

Lemma focus_inv_step (s s' : state) : focus_inv s → step s s' → focus_inv s'.
Proof.
  intros Hinv Hstep. destruct Hstep as
    [s el Hin Hfocus | s el Hin Hfocus | s id cb Hid | s | s h
    | s el sel top height Hin].
  - rewrite deliver_run. destruct Hinv as (Hhears & Hnamed & Hfocused).
    assert (Hnone : ∀ id t, timers s !! id ≠ Some (Cb_blur t)).
    { intros id t Hid. apply Hnamed in Hid as [_ Hno].
      unfold elm_has_focus in Hno. rewrite Hin in Hno. congruence. }
    destruct (bool_decide _).
    + rewrite onBlur_run. split; [by destruct s|]. split; [|by destruct s].
      intros id t Hid. split; [|by destruct s].
      destruct (decide (id = next_timer s)) as [->|Hne]; [by destruct s|].
      destruct (Hnone id t).
      destruct s; cbn in *. by rewrite lookup_insert_ne in Hid.
    + split; [by destruct s|]. split; [|by destruct s].
      intros id t Hid. destruct (Hnone id t). by destruct s.
  - rewrite deliver_run. destruct Hinv as (Hhears & Hnamed & Hfocused).
    rewrite bool_decide_eq_true_2 by (revert Hhears; by destruct s).
    apply settled_focus_inv.
    + unfold hears_focus. rewrite onFocus_listeners.
      revert Hhears. by destruct s.
    + apply onFocus_settles.
      intros id t Hid. apply (Hnamed id t). revert Hid. by destruct s.
  - apply (preserves_run _ _ _ (preserves_focus_delete id)) in Hinv as Hdel.
    destruct cb as [t|]; cbn [run_callback].
    + apply Hinv in Hid as [_ Hno].
      apply preserves_blurred.
      split; [exact Hdel|]. revert Hno. unfold elm_has_focus. by destruct s.
    + apply preserves_run; [focus_frame|done].
  - by apply focus_inv_flush.
  - by apply preserves_run; [apply preserves_focus_handle|].
  - revert Hinv. unfold focus_inv, hears_focus, elm_has_focus.
    destruct s; cbn in *. by rewrite Hin.
Qed.

Lemma focus_inv_steps (s s' : state) : focus_inv s → steps s s' → focus_inv s'.
Proof.
  intros Hinv Hsteps. induction Hsteps as [s|s1 s2 s3 _ IH Hstep]; [done|].
  eapply focus_inv_step; [by apply IH|done].
Qed.

(** Where [mounted] threw before it added the listeners, focus and blur
    of the element reach no method: the component never gets
    [focused]. *)
Lemma preserves_unheard_deliver (ev : string) (m : M unit) :
  preserves unheard (deliver ev m).
Proof.
  intros s Hs. rewrite deliver_done. cbn [fst snd]. rewrite deliver_run.
  destruct Hs as (Hnone & Hrest). rewrite Hnone.
  rewrite bool_decide_eq_false_2 by apply not_elem_of_empty.
  by split.
Qed.

Lemma preserves_unheard_enableTimer :
  preserves unheard (setTimeout Cb_enableClickOutside).
Proof.
  intros s (Hnone & Hfocused & Htimers). cbn.
  split; [by destruct s|]. split; [by destruct s|].
  intros id t Hid. destruct (Htimers id t).
  destruct s; cbn in *. rewrite lookup_insert in Hid. by case_decide.
Qed.

Ltac unheard_frame :=
  repeat first
    [ lazymatch goal with
      | |- preserves _ (deliver _ _) => apply preserves_unheard_deliver
      | |- preserves _ (setTimeout Cb_enableClickOutside) =>
          apply preserves_unheard_enableTimer
      | |- preserves _ (call_replaceWord _ _ _) =>
          apply preserves_call_replaceWord
      end
    | frame_step_with ltac:(intros [] ?; unfold unheard in *; cbn in *;
                            try done)
    | progress unfold EmojiInput.handle, triggerShowPicker, togglePicker,
        replace, insert, onClick, replaceText, onTransition, onKeyUp,
        onPaste, onKeyDown, onInput, onCompositionUpdate, onClickOutside,
        onStickerUploaded, onStickerUploadFailed, cycleBackward,
        cycleForward, emit_input, nextTick, setCaret, resize, place,
        elm_focus, elm_setSelectionRange ].

Lemma unheard_step (s s' : state) : unheard s → step s s' → unheard s'.
Proof.
  intros Hs Hstep. destruct Hstep as
    [s el Hin Hfocus | s el Hin Hfocus | s id cb Hid | s | s h
    | s el sel top height Hin].
  - apply preserves_run; [apply preserves_unheard_deliver|].
    revert Hs. by destruct s.
  - apply preserves_run; [apply preserves_unheard_deliver|].
    revert Hs. by destruct s.
  - destruct cb as [t|]; [by destruct Hs as (_ & _ & Hnone), (Hnone id t)|].
    destruct Hs as (Hnone & Hfocused & Htimers).
    split; [by destruct s|]. split; [by destruct s|].
    intros id' t Hid'. destruct (Htimers id' t).
    destruct s; cbn in *. rewrite lookup_delete in Hid'. by case_decide.
  - unfold flush.
    assert (Hstart : unheard (set_ticks [] s)) by (revert Hs; by destruct s).
    revert Hstart. generalize (set_ticks [] s) as s0.
    induction (ticks s) as [|j l IH]; intros s0 H0; [done|].
    cbn. apply IH. apply preserves_run; [|done].
    destruct j; cbn [run_job]; unheard_frame.
  - apply preserves_run; [|done]. destruct h; unheard_frame.
  - revert Hs. by destruct s.
Qed.

Lemma unheard_stays_unfocused (v : jsstr) (el : elm) (s : state) :
  steps (mounted_state v (Some el) true false) s → unheard s.
Proof.
  assert (Hstart : unheard (mounted_state v (Some el) true false)).
  { split; [done|]. split; [done|]. intros id t Hid. cbn in Hid.
    by rewrite lookup_empty in Hid. }
  revert Hstart. generalize (mounted_state v (Some el) true false) as s0.
  intros s0 Hstart Hsteps.
  induction Hsteps as [s|s1 s2 s3 _ IH Hstep]; [done|].
  eapply unheard_step; [by apply IH|done].
Qed.

Lemma onFocus_cancels (e : target) (s : state) (t : positive) :
  blurTimeout s = Some t →
  timers (run (onFocus e) s) = delete t (timers s)
  ∧ blurTimeout (run (onFocus e) s) = None
  ∧ focused (run (onFocus e) s) = true.
Proof.
  intros Ht. rewrite onFocus_run.
  apply (preserves_run
           (λ s', timers s' = delete t (timers s) ∧ blurTimeout s' = None
                  ∧ focused s' = true)).
  - apply onFocus_tail_keeps; by intros [].
  - unfold focus_taken. rewrite Ht. by destruct (spamMode s).
Qed.

(** C7. [onBlur] leaves [focused] as it is: it starts a timer and stores
    its id in [blurTimeout]; the callback of that timer is the one that
    clears [focused], whenever it runs. [onFocus], run while
    [blurTimeout] holds a timer id, clears that timer, so that its
    callback can run no more, puts [null] in [blurTimeout] and sets
    [focused]. And in every state reached by a component on which
    [mounted] went through, so that it listens to the element, a pending
    blur callback is the timer [blurTimeout] names and the element is
    without focus: once the focus event has come, no blur callback is
    left to fire, and the component stays [focused] for as long as the
    element keeps the focus. Where [mounted] threw before it added the
    listeners (the panel is rendered without the picker), neither
    method is ever called: no blur callback is ever pending and the
    component is never [focused]. *)
Theorem blur_cancelled_by_focus :
  (∀ s e,
     focused (run (onBlur e) s) = focused s
     ∧ blurTimeout (run (onBlur e) s) = Some (next_timer s)
     ∧ timers (run (onBlur e) s) !! next_timer s = Some (Cb_blur e)
     ∧ (∀ s', focused (run (run_callback (Cb_blur e)) s') = false))
  ∧ (∀ s e t,
       blurTimeout s = Some t →
       timers (run (onFocus e) s) !! t = None
       ∧ blurTimeout (run (onFocus e) s) = None
       ∧ focused (run (onFocus e) s) = true)
  ∧ (∀ v el panel picker s,
       has_focus el = false →
       panel && negb picker = false →
       steps (mounted_state v (Some el) panel picker) s →
       focus_inv s
       ∧ (elm_has_focus s = true →
          focused s = true ∧ ∀ id e, timers s !! id ≠ Some (Cb_blur e)))
  ∧ (∀ v el s,
       steps (mounted_state v (Some el) true false) s →
       focused s = false ∧ ∀ id e, timers s !! id ≠ Some (Cb_blur e)).
Proof.
  split; [|split; [|split]].
  - intros s e. rewrite onBlur_run. split; [by destruct s|].
    split; [by destruct s|]. split; [destruct s; apply lookup_insert_eq|].
    intros s'. cbn [run_callback]. unfold run, blurred.
    erewrite bind_done by reflexivity.
    apply (preserves_run (λ s1, focused s1 = false) (setCaret e ;; resize));
      [|done].
    unfold setCaret, resize. frame.
  - intros s e t Ht.
    destruct (onFocus_cancels e s t Ht) as (-> & Hnull & Hfocused).
    split; [apply lookup_delete_eq|done].
  - intros v el panel picker s Hel Hfine Hsteps.
    assert (Hinv : focus_inv s).
    { eapply focus_inv_steps; [by apply focus_inv_mounted|done]. }
    split; [done|]. destruct Hinv as (_ & Hnamed & Hfocused).
    intros Hfocus. split; [by apply Hfocused|].
    intros id e Hid. apply Hnamed in Hid as [_ Hno]. congruence.
  - intros v el s Hsteps.
    by destruct (unheard_stays_unfocused v el s Hsteps) as (_ & ? & ?).
Qed.

End Focus.

(** ** The properties at the examples *)

Import Demo.

Lemma one_word_found (v : jsstr) (p : Z) :
  0 ≤ p < len v → is_Some (one_word v p).
Proof.
  intros Hp. unfold one_word.
  destruct (Z.leb_spec 0 p), (Z.ltb_spec p (len v)); try lia. by eexists.
Qed.

Lemma one_word_inside (v : jsstr) (p : Z) (w : Word) :
  one_word v p = Some w → 0 ≤ start w ≤ p ∧ p < end_ w ≤ len v.
Proof.
  unfold one_word.
  destruct (Z.leb_spec 0 p), (Z.ltb_spec p (len v)); try done.
  intros [= <-]. cbn. lia.
Qed.

Lemma splice_word_splices (v : jsstr) (w : Word) (r : jsstr) :
  0 ≤ start w ≤ end_ w ≤ len v →
  splice_word v (WFound w) r =
    Done (take (Z.to_nat (start w)) v ++ r ++ drop (Z.to_nat (end_ w)) v).
Proof. reflexivity. Qed.

Example suggestions_demo :
  shown_replacement <$> suggestions one_word numbered typing
  = [lit ":sm11"; lit ":sm22"; lit ":sm33"; lit ":sm44"; lit ":sm55"].
Proof. vm_compute. reflexivity. Qed.

Lemma cycle_wraps_witness :
  1 < len (suggestions one_word numbered typing_last)
  ∧ highlighted (run (cycleForward one_word numbered) typing_last) = 0
  ∧ highlighted (run (cycleBackward one_word numbered) typing) = 4.
Proof.
  split; [reflexivity|]. split.
  - destruct (cycle_wraps one_word numbered typing_last) as [Hmany _].
    destruct (Hmany eq_refl) as (Hforward & _). exact Hforward.
  - destruct (cycle_wraps one_word numbered typing) as [Hmany _].
    destruct (Hmany eq_refl) as (_ & Hbackward & _). exact Hbackward.
Defined.

Lemma insert_splices_witness :
  let s1 := run (insert (lit "ile") false) typing in
  log s1 = [Emit_input (lit ":smile")]
  ∧ value s1 = lit ":sm"
  ∧ caret s1 = Num 3
  ∧ value (flush s1) = lit ":smile"
  ∧ caret (flush s1) = Num 6.
Proof.
  intros s1.
  destruct (insert_splices typing 3 (lit "ile") false)
    as (Hlog & Hvalue & Hcaret & Hnext & Hplace).
  - reflexivity.
  - unfold len. cbn. lia.
  - split; [exact Hlog|]. split; [exact Hvalue|]. split; [exact Hcaret|].
    split; [exact Hnext|]. apply Hplace. by eexists.
Defined.

Lemma caret_stays_in_text_witness :
  caret_in_text typing
  ∧ caret_in_text (flush (run (setCaret Target_elm) typing))
  ∧ caret_in_text (flush (run (insert (lit "ile") false) typing))
  ∧ caret_in_text
      (flush (run (replaceText one_word splice_word numbered None) typing)).
Proof.
  assert (Hcaret : caret_in_text typing).
  { exists 3. split; [reflexivity|]. unfold len. cbn. lia. }
  destruct (caret_stays_in_text one_word splice_word numbered
              one_word_found one_word_inside splice_word_splices
              typing Hcaret eq_refl) as (Hset & Hinsert & Hreplace).
  split; [exact Hcaret|]. split; [|split].
  - apply (Hset Target_elm 3); [reflexivity|]. unfold len. cbn. lia.
  - apply Hinsert.
  - apply Hreplace. by eexists.
Defined.

Example replaceText_demo :
  let s := flush (run (replaceText one_word splice_word numbered None) typing) in
  value s = lit ":sm11" ∧ caret s = Num 5.
Proof. vm_compute. done. Qed.

Lemma blur_cancelled_by_focus_witness :
  focused blurred_once = true
  ∧ blurTimeout blurred_once = Some 1%positive
  ∧ timers blurred_once !! 1%positive = Some (Cb_blur Target_elm)
  ∧ focused (run (run_callback (Cb_blur Target_elm)) blurred_once) = false
  ∧ timers focused_again !! 1%positive = None
  ∧ blurTimeout focused_again = None
  ∧ focus_inv focused_again
  ∧ focused focused_again = true.
Proof.
  destruct (blur_cancelled_by_focus one_word splice_word numbered)
    as (Hblur & Hfocus & Hreach & _).
  assert (Hheard : ∀ ev m s,
            bool_decide (ev ∈ listeners s) = true →
            run m s = run (deliver ev m) s).
  { intros ev m s Hev. by rewrite deliver_run, Hev. }
  assert (Hsteps : steps one_word splice_word numbered fresh focused_again).
  { apply (steps_step _ _ _ _ blurred_once);
      [apply (steps_step _ _ _ _ focused_once);
         [apply (steps_step _ _ _ _ fresh); [apply steps_refl|]|]|].
    - unfold focused_once.
      rewrite (Hheard "focus") by (vm_compute; reflexivity).
      exact (step_focus _ _ _ fresh field eq_refl eq_refl).
    - unfold blurred_once.
      rewrite (Hheard "blur") by (vm_compute; reflexivity).
      refine (step_blur _ _ _ focused_once (with_focus true field) _ eq_refl).
      vm_compute. reflexivity.
    - unfold focused_again.
      rewrite (Hheard "focus") by (vm_compute; reflexivity).
      refine (step_focus _ _ _ blurred_once
                (with_focus false (with_focus true field)) _ eq_refl).
      vm_compute. reflexivity. }
  destruct (Hreach (lit ":sm") field true true focused_again eq_refl eq_refl
              Hsteps) as (Hinv & Hstays).
  destruct (Hstays eq_refl) as (Hfocused & _).
  destruct (Hfocus
              (set_input
                 (Some (with_focus true (with_focus false (with_focus true field))))
                 blurred_once) Target_elm 1%positive eq_refl)
    as (Hgone & Hnull & _).
  destruct (Hblur
              (set_input (Some (with_focus false (with_focus true field)))
                 focused_once) Target_elm)
    as (Hkept & Hstored & Hpending & Hcleared).
  split; [exact Hkept|]. split; [exact Hstored|]. split; [exact Hpending|].
  split; [exact (Hcleared blurred_once)|].
  split; [exact Hgone|]. split; [exact Hnull|]. split; [exact Hinv|].
  exact Hfocused.
Defined.

(** ** More on inserting and cycling *)

(** Two states with the same fields are the same state. *)
Lemma state_ext (s s' : state) :
  value s = value s' →
  input s = input s' →
  highlighted s = highlighted s' →
  caret s = caret s' →
  focused s = focused s' →
  blurTimeout s = blurTimeout s' →
  showPicker s = showPicker s' →
  temporarilyHideSuggestions s = temporarilyHideSuggestions s' →
  spamMode s = spamMode s' →
  disableClickOutside s = disableClickOutside s' →
  refs_panel s = refs_panel s' →
  refs_picker s = refs_picker s' →
  listeners s = listeners s' →
  timers s = timers s' →
  next_timer s = next_timer s' →
  ticks s = ticks s' →
  log s = log s' →
  s = s'.
Proof. destruct s, s'; cbn; intros; by subst. Qed.

Lemma clamp_index_le (v : jsstr) (c : num) :
  (clamp_index v c ≤ length v)%nat.
Proof. destruct c as [|z]; unfold clamp_index, len; lia. Qed.

Lemma substring_before (v : jsstr) (c : num) :
  substring v (Num 0) (Some c) = take (clamp_index v c) v.
Proof.
  unfold substring. cbn [from_option].
  assert (H0 : clamp_index v (Num 0) = 0%nat) by (unfold clamp_index, len; lia).
  rewrite H0, Nat.min_0_l, Nat.max_0_l, Nat.sub_0_r. by rewrite drop_0.
Qed.

Lemma substring_after (v : jsstr) (c : num) :
  substring v c None = drop (clamp_index v c) v.
Proof.
  unfold substring. cbn [from_option].
  pose proof (clamp_index_le v c).
  rewrite Nat.min_l, Nat.max_r by lia.
  apply take_ge. rewrite length_drop. lia.
Qed.



(** X11. Wherever the caret is, [insert] loses nothing of the text: the
    emitted text is the old one cut at the caret brought into the text
    (a caret that is [NaN] or negative cuts at the start, one beyond the
    text at the end), with the insertion in between; it is longer by
    the length of the insertion, and after the next tick it is the
    text. [insert] also stores the [spamMode] it was given. *)
Theorem insert_keeps_text (s : state) (insertion : jsstr) (spam : bool) :
  let k := clamp_index (value s) (caret s) in
  let newValue := take k (value s) ++ insertion ++ drop k (value s) in
  let s1 := run (insert insertion spam) s in
  log s1 = log s ++ [Emit_input newValue]
  ∧ len newValue = len (value s) + len insertion
  ∧ value (flush s1) = newValue
  ∧ spamMode s1 = spam.
Proof.
  intros k newValue s1.
  assert (Hrun : s1 =
            set_ticks (ticks s ++ [Job_value newValue;
                                    Job_place (num_add (caret s) (len insertion))])
              (set_log (log s ++ [Emit_input newValue]) (set_spamMode spam s))).
  { subst s1. rewrite insert_run. cbv zeta.
    by rewrite substring_before, substring_after. }
  split; [by rewrite Hrun|]. split; [|split; [|by rewrite Hrun]].
  - subst newValue. rewrite !len_app. unfold len.
    pose proof (clamp_index_le (value s) (caret s)).
    rewrite length_take, length_drop. lia.
  - destruct (insert_then_tick s insertion spam) as [Hvalue _].
    fold s1 in Hvalue. by rewrite Hvalue, substring_before, substring_after.
Qed.



Example insert_with_stray_caret :
  (λ c, value (flush (run (insert (lit "!") false)
                        (set_caret c (Demo.fresh)))))
    <$> [NaN; Num (-2); Num 1; Num 99]
  = [lit "!:sm"; lit "!:sm"; lit ":!sm"; lit ":sm!"].
Proof. vm_compute. reflexivity. Qed.

Section Cycling.

Variable wordAtPosition : jsstr → Z → option Word.
Variable suggest : jsstr → list Suggestion.

Abbreviation suggestions := (suggestions wordAtPosition suggest).
Abbreviation cycleForward := (cycleForward wordAtPosition suggest).
Abbreviation cycleBackward := (cycleBackward wordAtPosition suggest).

Lemma suggestions_length_ext (s s' : state) :
  value s' = value s → caret s' = caret s →
  len (suggestions s') = len (suggestions s).
Proof.
  intros Hv Hc. rewrite !suggestions_unfold.
  unfold textAtCaret. rewrite (wordAtCaret_ext wordAtPosition s s' Hv Hc).
  destruct (_ || _); [done|]. unfold len. by rewrite !length_imap.
Qed.

Lemma cycleForward_text (s : state) :
  value (run cycleForward s) = value s ∧ caret (run cycleForward s) = caret s.
Proof.
  apply (preserves_run (λ s', value s' = value s ∧ caret s' = caret s));
    [|done].
  unfold EmojiInput.cycleForward. frame.
Qed.

Lemma cycleBackward_text (s : state) :
  value (run cycleBackward s) = value s ∧ caret (run cycleBackward s) = caret s.
Proof.
  apply (preserves_run (λ s', value s' = value s ∧ caret s' = caret s));
    [|done].
  unfold EmojiInput.cycleBackward. frame.
Qed.

Lemma cycleForward_inside (s : state) :
  1 < len (suggestions s) → 0 ≤ highlighted s < len (suggestions s) →
  len (suggestions (run cycleForward s)) = len (suggestions s)
  ∧ highlighted (run cycleForward s)
    = (highlighted s + 1) mod len (suggestions s).
Proof.
  intros Hn Hh. destruct (cycleForward_text s) as [Hv Hc].
  split; [by apply suggestions_length_ext|].
  rewrite cycleForward_run. apply Z.ltb_lt in Hn as ->.
  destruct (Z.leb_spec (len (suggestions s)) (highlighted s + 1)).
  - replace (highlighted s + 1) with (len (suggestions s)) by lia.
    by rewrite Z_mod_same_full.
  - by rewrite Z.mod_small by lia.
Qed.

Lemma cycleBackward_inside (s : state) :
  1 < len (suggestions s) → 0 ≤ highlighted s < len (suggestions s) →
  len (suggestions (run cycleBackward s)) = len (suggestions s)
  ∧ highlighted (run cycleBackward s)
    = (highlighted s - 1) mod len (suggestions s).
Proof.
  intros Hn Hh. destruct (cycleBackward_text s) as [Hv Hc].
  split; [by apply suggestions_length_ext|].
  rewrite cycleBackward_run. apply Z.ltb_lt in Hn as Hn'. rewrite Hn'.
  set (n := len (suggestions s)) in *.
  destruct (Z.ltb_spec (highlighted s - 1) 0).
  - replace (highlighted s - 1) with (n - 1 + (-1) * n) by lia.
    rewrite Z.mod_add by lia. by rewrite Z.mod_small by lia.
  - by rewrite Z.mod_small by lia.
Qed.

Lemma cycle_iter (s : state) (k : nat) :
  1 < len (suggestions s) → 0 ≤ highlighted s < len (suggestions s) →
  (len (suggestions (Nat.iter k (run cycleForward) s)) = len (suggestions s)
   ∧ highlighted (Nat.iter k (run cycleForward) s)
     = (highlighted s + Z.of_nat k) mod len (suggestions s))
  ∧ (len (suggestions (Nat.iter k (run cycleBackward) s)) = len (suggestions s)
     ∧ highlighted (Nat.iter k (run cycleBackward) s)
       = (highlighted s - Z.of_nat k) mod len (suggestions s)).
Proof.
  intros Hn Hh. set (n := len (suggestions s)) in *.
  induction k as [|k [[IHn IHf] [IHn' IHb]]].
  - cbn. rewrite Z.add_0_r, Z.sub_0_r, Z.mod_small by lia. by repeat split.
  - rewrite !Nat.iter_succ. split.
    + destruct (cycleForward_inside (Nat.iter k (run cycleForward) s))
        as [Hlen Hnext].
      { by rewrite IHn. }
      { rewrite IHn, IHf. apply Z.mod_pos_bound. lia. }
      rewrite Hlen, Hnext, IHn, IHf. split; [done|].
      rewrite Zplus_mod_idemp_l. f_equal. lia.
    + destruct (cycleBackward_inside (Nat.iter k (run cycleBackward) s))
        as [Hlen Hnext].
      { by rewrite IHn'. }
      { rewrite IHn', IHb. apply Z.mod_pos_bound. lia. }
      rewrite Hlen, Hnext, IHn', IHb. split; [done|].
      rewrite Zminus_mod_idemp_l. f_equal. lia.
Qed.

(** X12. Cycling goes round the list. From an index inside a list of
    more than one suggestion, [k] calls of [cycleForward] lead to
    [(h + k) mod n] and [k] calls of [cycleBackward] to [(h - k) mod n],
    the list keeping its length [n] all along; so the index stays
    inside the list, one call undoes the other, and [n] calls in one
    direction come back to the start. *)
Theorem cycling_goes_round (s : state) (k : nat) :
  let n := len (suggestions s) in
  let h := highlighted s in
  1 < n → 0 ≤ h < n →
  highlighted (Nat.iter k (run cycleForward) s) = (h + Z.of_nat k) mod n
  ∧ highlighted (Nat.iter k (run cycleBackward) s) = (h - Z.of_nat k) mod n
  ∧ len (suggestions (Nat.iter k (run cycleForward) s)) = n
  ∧ len (suggestions (Nat.iter k (run cycleBackward) s)) = n
  ∧ highlighted (run cycleBackward (run cycleForward s)) = h
  ∧ highlighted (run cycleForward (run cycleBackward s)) = h
  ∧ highlighted (Nat.iter (Z.to_nat n) (run cycleForward) s) = h
  ∧ highlighted (Nat.iter (Z.to_nat n) (run cycleBackward) s) = h.
Proof.
  intros n h Hn Hh.
  destruct (cycle_iter s k Hn Hh) as [[Hlf Hf] [Hlb Hb]].
  destruct (cycle_iter s (Z.to_nat n) Hn Hh) as [[_ Hfn] [_ Hbn]].
  destruct (cycleForward_inside s Hn Hh) as [Hlen1 Hh1].
  destruct (cycleBackward_inside s Hn Hh) as [Hlen2 Hh2].
  fold n h in Hlf, Hf, Hlb, Hb, Hfn, Hbn, Hlen1, Hh1, Hlen2, Hh2.
  split; [done|]. split; [done|]. split; [done|]. split; [done|].
  split; [|split; [|split]].
  - destruct (cycleBackward_inside (run cycleForward s)) as [_ Hback].
    { by rewrite Hlen1. }
    { rewrite Hlen1, Hh1. apply Z.mod_pos_bound. lia. }
    rewrite Hback, Hlen1, Hh1, Zminus_mod_idemp_l.
    replace (h + 1 - 1) with h by lia. apply Z.mod_small. lia.
  - destruct (cycleForward_inside (run cycleBackward s)) as [_ Hforth].
    { by rewrite Hlen2. }
    { rewrite Hlen2, Hh2. apply Z.mod_pos_bound. lia. }
    rewrite Hforth, Hlen2, Hh2, Zplus_mod_idemp_l.
    replace (h - 1 + 1) with h by lia. apply Z.mod_small. lia.
  - rewrite Hfn, Z2Nat.id by lia.
    replace (h + n) with (h + 1 * n) by lia.
    rewrite Z.mod_add by lia. apply Z.mod_small. lia.
  - rewrite Hbn, Z2Nat.id by lia.
    replace (h - n) with (h + (-1) * n) by lia.
    rewrite Z.mod_add by lia. apply Z.mod_small. lia.
Qed.

End Cycling.

Lemma cycling_goes_round_witness :
  highlighted (Nat.iter 7 (run (cycleForward Demo.one_word Demo.numbered))
                 Demo.typing_last) = 1
  ∧ highlighted (Nat.iter 5 (run (cycleBackward Demo.one_word Demo.numbered))
                   Demo.typing_last) = 4.
Proof.
  assert (Hn : 1 < len (suggestions Demo.one_word Demo.numbered Demo.typing_last))
    by reflexivity.
  assert (Hh : 0 ≤ highlighted Demo.typing_last
               < len (suggestions Demo.one_word Demo.numbered Demo.typing_last))
    by (split; [discriminate|reflexivity]).
  split.
  - exact (proj1 (cycling_goes_round Demo.one_word Demo.numbered
                    Demo.typing_last 7 Hn Hh)).
  - exact (proj1 (proj2 (proj2 (proj2 (proj2 (proj2 (proj2
             (cycling_goes_round Demo.one_word Demo.numbered
                Demo.typing_last 5 Hn Hh)))))))).
Defined.

(** ** More on replacing the word at the caret *)

Section Replacing.

Variable wordAtPosition : jsstr → Z → option Word.
Variable replaceWord : jsstr → caret_word → jsstr → outcome jsstr.
Variable suggest : jsstr → list Suggestion.

Abbreviation wordAtCaret := (wordAtCaret wordAtPosition).
Abbreviation textAtCaret := (textAtCaret wordAtPosition).
Abbreviation suggestions := (suggestions wordAtPosition suggest).
Abbreviation replaceText := (replaceText wordAtPosition replaceWord suggest).
Abbreviation replace := (replace wordAtPosition replaceWord).

Lemma at_index_some {A} (xs : list A) (i : Z) (x : A) :
  at_index xs i = Some x → 0 < len xs.
Proof.
  unfold at_index, len. destruct (i <? 0); [done|]. intros Hx.
  apply lookup_lt_Some in Hx. lia.
Qed.

(** X13. [replaceText] leaves the component as it is, emits nothing and
    does not prevent the default action of the key, in three cases: the
    word at the caret has exactly one code unit; no suggestion is
    passed and there is none to choose from; no suggestion is passed
    and [highlighted] points outside the list (as it can after the list
    got shorter), where reading [replacement] of [undefined] throws. *)
Theorem replaceText_declines (suggestion : option Shown) (s : state) :
  len (textAtCaret s) = 1
  ∨ (suggestion = None
     ∧ at_index (suggestions s) (highlighted s) = None) →
  run (replaceText suggestion) s = s.
Proof.
  intros Hcase. unfold run, EmojiInput.replaceText.
  do 2 (erewrite bind_done by reflexivity).
  destruct Hcase as [Hone | [-> Hnone]].
  - by rewrite Hone.
  - destruct (len _ =? 1); [done|].
    destruct (_ || _); [|done].
    do 2 (erewrite bind_done by reflexivity).
    rewrite Hnone. by erewrite bind_thrown by reflexivity.
Qed.

(** X14. [replace] emits what [replaceWord] makes of the text and the
    word at the caret and moves the caret to 0 at once; after the next
    tick the emitted text is the text, so the caret is inside it. When
    [replaceWord] throws, [replace] changes nothing. *)
Theorem replace_moves_caret_to_start (r : jsstr) (s : state) :
  ticks s = [] →
  match replaceWord (value s) (wordAtCaret s) r with
  | Done newValue =>
      log (run (replace r) s) = log s ++ [Emit_input newValue]
      ∧ caret (run (replace r) s) = Num 0
      ∧ value (run (replace r) s) = value s
      ∧ value (flush (run (replace r) s)) = newValue
      ∧ caret_in_text (flush (run (replace r) s))
  | Thrown => run (replace r) s = s
  end.
Proof.
  intros Hticks. unfold run, EmojiInput.replace.
  erewrite bind_done by reflexivity.
  destruct (replaceWord (value s) (wordAtCaret s) r) as [nv|] eqn:Hnv.
  2: { by erewrite bind_thrown by (unfold call_replaceWord; by rewrite Hnv). }
  erewrite bind_done by (unfold call_replaceWord; by rewrite Hnv).
  erewrite bind_done by reflexivity.
  split; [by destruct s|]. split; [by destruct s|]. split; [by destruct s|].
  erewrite flush_one by (destruct s; cbn in *; by subst).
  split; [by destruct s|].
  exists 0. split; [by destruct s|]. unfold len. cbn. lia.
Qed.

(** [Completion], as assumed before for a word that was found. *)
Hypothesis word_inside :
  ∀ v p w, wordAtPosition v p = Some w →
    0 ≤ start w ≤ p ∧ p < end_ w ≤ len v.
Hypothesis replace_splices :
  ∀ v w r, 0 ≤ start w ≤ end_ w ≤ len v →
    replaceWord v (WFound w) r =
      Done (take (Z.to_nat (start w)) v ++ r ++ drop (Z.to_nat (end_ w)) v).

(** X15. When a suggestion is chosen, by a click or as the highlighted
    one, for a word at the caret of other than one code unit,
    [replaceText] emits the text with that word replaced by the
    suggestion's replacement, puts [highlighted] back to 0 and prevents
    the default action. After the next tick that is the text, and on a
    component that holds its nested element the caret stands right
    after the replacement. *)
Theorem replaceText_replaces_word
    (s : state) (suggestion : option Shown) (g : Shown) (f : Word) :
  ticks s = [] →
  wordAtCaret s = WFound f →
  len (word f) ≠ 1 →
  suggestion = Some g
  ∨ (suggestion = None ∧ at_index (suggestions s) (highlighted s) = Some g) →
  let r := shown_replacement g in
  let newValue :=
    take (Z.to_nat (start f)) (value s) ++ r
    ++ drop (Z.to_nat (end_ f)) (value s) in
  let s1 := run (replaceText suggestion) s in
  log s1 = log s ++ [Emit_input newValue; Prevent_default]
  ∧ highlighted s1 = 0
  ∧ value (flush s1) = newValue
  ∧ (is_Some (input s) → caret (flush s1) = Num (start f + len r)).
Proof.
  intros Hticks Hw Hlen Hchosen r newValue s1.
  destruct (wordAtCaret_found wordAtPosition s f Hw) as (c & Hc & Hf).
  apply word_inside in Hf as Hin.
  assert (Hrun : s1 =
    set_log (log s ++ [Emit_input newValue; Prevent_default])
      (set_ticks [Job_value newValue; Job_place (Num (start f + len r))]
         (set_highlighted 0 s))).
  { subst s1. unfold run, EmojiInput.replaceText.
    do 2 (erewrite bind_done by reflexivity).
    unfold EmojiInput.textAtCaret. rewrite Hw.
    apply Z.eqb_neq in Hlen as ->.
    assert (Hcond : (0 <? len (suggestions s))
                    || bool_decide (is_Some suggestion) = true).
    { destruct Hchosen as [-> | [-> Hat]].
      - rewrite bool_decide_eq_true_2 by by eexists. apply orb_true_r.
      - apply at_index_some, Z.ltb_lt in Hat as ->. done. }
    rewrite Hcond.
    do 2 (erewrite bind_done by reflexivity).
    erewrite (bind_done _ _ _ _ g)
      by (destruct Hchosen as [-> | [-> ->]]; reflexivity).
    erewrite bind_done by reflexivity.
    erewrite bind_done
      by (unfold call_replaceWord; rewrite Hw, replace_splices by lia;
          reflexivity).
    do 3 (erewrite bind_done by reflexivity).
    erewrite (wordAtCaret_ext wordAtPosition s) by by destruct s.
    rewrite Hw.
    do 2 (erewrite bind_done by reflexivity).
    apply state_ext; try reflexivity.
    - transitivity ((ticks s ++ [Job_value newValue])
                    ++ [Job_place (Num (start f + len r))]);
        [reflexivity|by rewrite Hticks].
    - transitivity ((log s ++ [Emit_input newValue]) ++ [Prevent_default]);
        [reflexivity|by rewrite <- app_assoc]. }
  split; [by rewrite Hrun|]. split; [by rewrite Hrun|].
  erewrite flush_two by (by rewrite Hrun). cbn [run_job].
  split.
  - rewrite place_value, Hrun. by destruct s.
  - intros Hmounted. apply place_run with (v := newValue).
    split; rewrite Hrun; by destruct s.
Qed.

End Replacing.

Lemma replaceText_declines_witness :
  run (replaceText Demo.one_word Demo.splice_word Demo.numbered None)
    (set_highlighted 5 Demo.typing)
  = set_highlighted 5 Demo.typing
  ∧ run (replaceText Demo.one_word Demo.splice_word Demo.numbered None)
      (set_highlighted (-1) Demo.typing)
    = set_highlighted (-1) Demo.typing.
Proof.
  split;
    apply (replaceText_declines Demo.one_word Demo.splice_word Demo.numbered);
    right; split; reflexivity.
Defined.

Lemma replace_moves_caret_to_start_witness :
  value (flush (run (replace Demo.one_word Demo.splice_word (lit ":smile:"))
                  Demo.typing)) = lit ":smile:"
  ∧ caret (flush (run (replace Demo.one_word Demo.splice_word (lit ":smile:"))
                    Demo.typing)) = Num 0.
Proof.
  pose proof (replace_moves_caret_to_start Demo.one_word Demo.splice_word
                (lit ":smile:") Demo.typing eq_refl) as H.
  destruct H as (_ & _ & _ & Hvalue & _).
  split; [exact Hvalue|]. vm_compute. reflexivity.
Defined.

Lemma one_word_at_caret :
  wordAtCaret Demo.one_word Demo.typing
  = WFound {| word := lit ":sm"; start := 0; end_ := 3 |}.
Proof. reflexivity. Qed.

Lemma replaceText_replaces_word_witness :
  let clicked :=
    {| shown_displayText := lit "smile"; shown_replacement := lit ":smile: ";
       shown_detailText := None; img := []; shown_highlighted := false |} in
  let s1 := run (replaceText Demo.one_word Demo.splice_word Demo.numbered
                   (Some clicked)) Demo.typing in
  log s1 = [Emit_input (lit ":smile: "); Prevent_default]
  ∧ highlighted s1 = 0
  ∧ value (flush s1) = lit ":smile: "
  ∧ caret (flush s1) = Num 8.
Proof.
  intros clicked s1.
  destruct (replaceText_replaces_word Demo.one_word Demo.splice_word
              Demo.numbered one_word_inside splice_word_splices
              Demo.typing (Some clicked) clicked
              {| word := lit ":sm"; start := 0; end_ := 3 |}
              eq_refl one_word_at_caret)
    as (Hlog & Hhigh & Hvalue & Hcaret).
  - discriminate.
  - by left.
  - split; [exact Hlog|]. split; [exact Hhigh|]. split; [exact Hvalue|].
    apply Hcaret. by eexists.
Defined.

(** ** More on the handlers *)

Import EmojiInputLifecycle.

Lemma preserves_setTimeout (P : state → Prop) (cb : callback) :
  (∀ s, P s →
        P (set_next_timer (Pos.succ (next_timer s))
             (set_timers (<[next_timer s := cb]> (timers s)) s))) →
  preserves P (setTimeout cb).
Proof. intros H s Hs. by apply H. Qed.

(** [frame_all] is [frame] going into every method. *)
Ltac frame_all :=
  repeat first
    [ lazymatch goal with
      | |- preserves _ (setTimeout _) =>
          apply preserves_setTimeout; intros [] ?; cbn in *; try done
      | |- preserves _ (call_replaceWord _ _ _) =>
          apply preserves_call_replaceWord
      end
    | frame_step_with ltac:(intros [] ?; cbn in *; try done)
    | progress unfold handle, run_callback, triggerShowPicker, togglePicker,
        replace, insert, onClick, replaceText, onTransition, onKeyUp,
        onPaste, onKeyDown, onInput, onCompositionUpdate, onClickOutside,
        onStickerUploaded, onStickerUploadFailed, cycleBackward,
        cycleForward, emit_input, nextTick, setCaret, resize, place,
        blurred, onBlur, onFocus, clearTimeout, elm_focus,
        elm_setSelectionRange ].

Lemma flush_value_from (l : list job) (s : state) :
  value (foldl (λ s' j, run (run_job j) s') s l)
  = default (value s) (last (omap job_value l)).
Proof.
  revert s. induction l as [|j l IH]; intros s; [done|].
  cbn [foldl]. rewrite IH. destruct j as [v|p].
  - change (omap job_value (Job_value v :: l)) with (v :: omap job_value l).
    change (run (run_job (Job_value v)) s) with (set_value v s).
    rewrite last_cons. by destruct (last (omap job_value l)).
  - change (omap job_value (Job_place p :: l)) with (omap job_value l).
    change (run (run_job (Job_place p)) s) with (run (place p) s).
    by rewrite place_value.
Qed.

Section Handlers.

Variable wordAtPosition : jsstr → Z → option Word.
Variable replaceWord : jsstr → caret_word → jsstr → outcome jsstr.
Variable suggest : jsstr → list Suggestion.

Abbreviation handle := (handle wordAtPosition replaceWord suggest).
Abbreviation onKeyDown := (onKeyDown wordAtPosition replaceWord suggest).
Abbreviation showSuggestions := (showSuggestions wordAtPosition suggest).
Abbreviation step := (step wordAtPosition replaceWord suggest).

(** X16. The component never writes its [value] prop: no method the
    template or the parent calls, no timer callback and neither focus
    nor blur changes it. It changes on the next tick only, to the text
    emitted last, and stays when nothing was emitted. *)
Theorem value_is_only_written_by_the_parent (s : state) :
  (∀ h, value (run (handle h) s) = value s)
  ∧ (∀ cb, value (run (run_callback cb) s) = value s)
  ∧ (∀ e, value (run (onFocus e) s) = value s)
  ∧ (∀ e, value (run (onBlur e) s) = value s)
  ∧ value (flush s) = default (value s) (last (omap job_value (ticks s))).
Proof.
  split; [|split; [|split; [|split]]].
  - intros h. apply (preserves_run (λ s', value s' = value s)); [|done].
    destruct h; frame_all.
  - intros cb. apply (preserves_run (λ s', value s' = value s)); [|done].
    destruct cb; frame_all.
  - intros e. apply (preserves_run (λ s', value s' = value s)); [|done].
    frame_all.
  - intros e. apply (preserves_run (λ s', value s' = value s)); [|done].
    frame_all.
  - unfold flush. rewrite flush_value_from. by destruct s.
Qed.

Lemma escape_while_hidden (s : state) :
  temporarilyHideSuggestions s = true →
  (read temporarilyHideSuggestions
   ≫= λ hidden' : bool, when (negb hidden') elm_focus) s = (Done tt, s).
Proof. intros Hhidden. erewrite bind_done by reflexivity. by rewrite Hhidden. Qed.

Lemma set_log_same (s : state) : set_log (log s ++ []) s = s.
Proof. apply state_ext; try reflexivity. apply app_nil_r. Qed.

Lemma resize_run (s : state) :
  resize s =
    (if resize_throws s then Thrown else Done tt,
     set_log (log s ++ resize_effects s) s).
Proof.
  unfold resize, resize_throws, resize_effects.
  erewrite bind_done by reflexivity.
  destruct (refs_panel s) eqn:Hpanel; cbn [negb andb].
  2: { by rewrite set_log_same. }
  unfold input_elm. destruct (input s) as [el|] eqn:Hin.
  2: { erewrite bind_thrown by (by rewrite Hin). by rewrite set_log_same. }
  erewrite bind_done by (by rewrite Hin).
  do 2 (erewrite bind_done by reflexivity).
  change (refs_picker (set_log _ s)) with (refs_picker s).
  destruct (refs_picker s); cbn [negb].
  - unfold perform, write. f_equal. apply state_ext; try reflexivity.
    cbn. by rewrite <- app_assoc.
  - reflexivity.
Qed.

Lemma resize_emits_nothing (s : state) :
  Forall (λ e, ∀ v, e ≠ Emit_input v) (resize_effects s).
Proof.
  unfold resize_effects.
  destruct (refs_panel s), (input s), (refs_picker s);
    repeat constructor; discriminate.
Qed.

(** X17. While the suggestions are temporarily hidden the keys that
    work on them do nothing: whatever key goes down, the highlight,
    the caret and the queue for the next tick stay as they are and
    nothing is emitted; the handler only closes the picker and
    resizes. *)
Theorem hidden_suggestions_ignore_keys
    (s : state) (ctrlKey shiftKey : bool) (key : string) :
  temporarilyHideSuggestions s = true →
  let s1 := run (onKeyDown ctrlKey shiftKey key) s in
  s1 = run resize (set_showPicker false s)
  ∧ highlighted s1 = highlighted s
  ∧ caret s1 = caret s
  ∧ ticks s1 = ticks s
  ∧ showPicker s1 = false
  ∧ Forall (λ e, ∀ v, e ≠ Emit_input v)
      (drop (length (log s)) (log s1)).
Proof.
  intros Hhidden s1.
  assert (Hrun : s1 = run resize (set_showPicker false s)).
  { subst s1. unfold run, EmojiInput.onKeyDown.
    erewrite bind_done by reflexivity. rewrite Hhidden. cbn [negb when].
    erewrite bind_done by reflexivity.
    destruct (bool_decide (key = "Escape")); cbn [when].
    - erewrite bind_done by by apply escape_while_hidden.
      by erewrite bind_done by reflexivity.
    - erewrite bind_done by reflexivity.
      by erewrite bind_done by reflexivity. }
  split; [done|]. rewrite Hrun. unfold run. rewrite resize_run. cbn [snd].
  repeat split.
  change (log (set_log ?l _)) with l.
  change (log (set_showPicker false s)) with (log s).
  rewrite drop_app_length. apply resize_emits_nothing.
Qed.

End Handlers.

Lemma hidden_suggestions_ignore_keys_witness :
  highlighted
    (run (onKeyDown Demo.one_word Demo.splice_word Demo.numbered false false "Tab")
       (set_temporarilyHideSuggestions true Demo.typing)) = 0
  ∧ ticks
      (run (onKeyDown Demo.one_word Demo.splice_word Demo.numbered false false "Enter")
         (set_temporarilyHideSuggestions true Demo.typing)) = [].
Proof.
  split.
  - exact (proj1 (proj2 (hidden_suggestions_ignore_keys Demo.one_word
             Demo.splice_word Demo.numbered
             (set_temporarilyHideSuggestions true Demo.typing)
             false false "Tab" eq_refl))).
  - exact (proj1 (proj2 (proj2 (proj2 (hidden_suggestions_ignore_keys
             Demo.one_word Demo.splice_word Demo.numbered
             (set_temporarilyHideSuggestions true Demo.typing)
             false false "Enter" eq_refl))))).
Defined.

(** ** More on the picker, the focus and the life of the component *)

(** X18. A click outside right after [triggerShowPicker] leaves the
    picker open: the handler is switched off until the timer started by
    [triggerShowPicker] has fired; from then on a click outside closes
    the picker. *)
Theorem picker_survives_the_opening_click (s : state) :
  let s1 := run triggerShowPicker s in
  let t := next_timer s in
  let s2 := run (run_callback Cb_enableClickOutside)
              (set_timers (delete t (timers s1)) s1) in
  showPicker s1 = true
  ∧ timers s1 !! t = Some Cb_enableClickOutside
  ∧ run onClickOutside s1 = s1
  ∧ showPicker s2 = true
  ∧ showPicker (run onClickOutside s2) = false
  ∧ (disableClickOutside s = false → showPicker (run onClickOutside s) = false).
Proof.
  intros s1 t s2. subst s1 s2 t.
  split; [reflexivity|]. split; [apply lookup_insert_eq|].
  split; [reflexivity|]. split; [reflexivity|]. split; [reflexivity|].
  intros Hon. unfold run, onClickOutside.
  erewrite bind_done by reflexivity. by rewrite Hon.
Qed.

Lemma picker_survives_the_opening_click_witness :
  showPicker (run onClickOutside (run triggerShowPicker Demo.fresh)) = true
  ∧ showPicker (run onClickOutside (set_showPicker true Demo.fresh)) = false.
Proof.
  destruct (picker_survives_the_opening_click Demo.fresh)
    as (Hopen & _ & Hkept & _ & _ & _).
  destruct (picker_survives_the_opening_click (set_showPicker true Demo.fresh))
    as (_ & _ & _ & _ & _ & Hcloses).
  split; [by rewrite Hkept|by apply Hcloses].
Defined.

Lemma onFocus_picker (e : target) (s : state) :
  showPicker (run (onFocus e) s) = (if spamMode s then showPicker s else false)
  ∧ focused (run (onFocus e) s) = true
  ∧ spamMode (run (onFocus e) s) = spamMode s
  ∧ input (run (onFocus e) s) = input s.
Proof.
  rewrite onFocus_run.
  apply (preserves_run
           (λ s', showPicker s' = (if spamMode s then showPicker s else false)
                  ∧ focused s' = true ∧ spamMode s' = spamMode s
                  ∧ input s' = input s)).
  - apply onFocus_tail_keeps; by intros [].
  - unfold focus_taken.
    destruct (blurTimeout s), (spamMode s) eqn:Hspam; cbn; by rewrite ?Hspam.
Qed.

(** The state [this.input.elm.focus()] leaves. *)
Lemma elm_focus_run (s : state) (el : elm) :
  input s = Some el →
  elm_focus s =
    (Done tt,
     if has_focus el then set_log (log s ++ [Elm_focus]) s
     else
       let s1 := set_input (Some (Elm true (selectionStart el) (offsetTop el)
                                    (offsetHeight el)))
                   (set_log (log s ++ [Elm_focus]) s) in
       if bool_decide ("focus" ∈ listeners s)
       then run (onFocus Target_elm) s1 else s1).
Proof.
  intros Hin. unfold elm_focus.
  erewrite bind_done by (unfold input_elm; by rewrite Hin).
  erewrite bind_done by reflexivity.
  destruct (has_focus el); [reflexivity|].
  erewrite bind_done by reflexivity.
  by rewrite deliver_done, deliver_run.
Qed.

Lemma elm_focus_picker (s : state) (el : elm) :
  input s = Some el →
  showPicker (run elm_focus s)
  = (if has_focus el || spamMode s
        || negb (bool_decide ("focus" ∈ listeners s))
     then showPicker s else false)
  ∧ spamMode (run elm_focus s) = spamMode s
  ∧ is_Some (input (run elm_focus s)).
Proof.
  intros Hin. unfold run. rewrite (elm_focus_run s el Hin). cbn [snd].
  destruct (has_focus el); cbn [orb].
  - split; [by destruct s|]. split; [by destruct s|].
    change (input (set_log _ s)) with (input s). by rewrite Hin.
  - cbv zeta. destruct (bool_decide _); cbn [negb].
    + match goal with |- context [run (onFocus _) ?x] =>
        destruct (onFocus_picker Target_elm x) as (Hp & _ & Hs & Hi) end.
      rewrite Hp, Hs, Hi. rewrite orb_false_r.
      split; [by destruct s|]. split; [by destruct s|]. by eexists.
    + rewrite orb_true_r. split; [by destruct s|]. split; [by destruct s|].
      by eexists.
Qed.

(** X19. [togglePicker] first gives the focus to the element. On an
    element that has the focus it then toggles the picker. On an
    element without focus the [focus] listener, where [mounted] has
    added it, runs first and, outside spam mode, closes the picker, so
    the toggle ends with the picker open; in spam mode, or when the
    element has no [focus] listener, it toggles. Without an element it
    throws and changes nothing. *)
Theorem togglePicker_opens_or_toggles (s : state) :
  (input s = None → run togglePicker s = s)
  ∧ (∀ el, input s = Some el →
       showPicker (run togglePicker s)
       = if has_focus el || spamMode s
            || negb (bool_decide ("focus" ∈ listeners s))
         then negb (showPicker s) else true).
Proof.
  split.
  - intros Hin. unfold run, togglePicker, elm_focus.
    assert (Hthrow : input_elm s = (Thrown, s))
      by (unfold input_elm; by rewrite Hin).
    by rewrite (bind_thrown _ _ _ _ (bind_thrown _ _ _ _ Hthrow)).
  - intros el Hin. destruct (elm_focus_picker s el Hin) as (Hp & _ & _).
    unfold run in *. unfold togglePicker.
    destruct (elm_focus s) as [[[]|] s1] eqn:Hfocus.
    2: { rewrite (elm_focus_run s el Hin) in Hfocus. discriminate. }
    erewrite bind_done by exact Hfocus.
    erewrite bind_done by reflexivity.
    cbn in Hp |- *. change (showPicker (set_showPicker ?b _)) with b.
    rewrite Hp. by destruct (has_focus el || spamMode s || _).
Qed.

Lemma togglePicker_opens_or_toggles_witness :
  showPicker (run togglePicker (set_showPicker true Demo.fresh)) = true
  ∧ showPicker (run togglePicker (set_showPicker true Demo.focused_once)) = false
  ∧ showPicker
      (run togglePicker
         (set_showPicker true
            (mounted_state (lit ":sm") (Some Demo.field) true false))) = false.
Proof.
  split; [|split].
  - refine (eq_trans
              (proj2 (togglePicker_opens_or_toggles
                        (set_showPicker true Demo.fresh))
                 Demo.field eq_refl) _).
    vm_compute. reflexivity.
  - refine (eq_trans
              (proj2 (togglePicker_opens_or_toggles
                        (set_showPicker true Demo.focused_once))
                 (with_focus true Demo.field) _) _);
      vm_compute; reflexivity.
  - refine (eq_trans
              (proj2 (togglePicker_opens_or_toggles
                        (set_showPicker true
                           (mounted_state (lit ":sm") (Some Demo.field)
                              true false)))
                 Demo.field eq_refl) _).
    vm_compute. reflexivity.
Defined.

Lemma place_picker (p : num) (s : state) (el : elm) :
  input s = Some el →
  showPicker (run (place p) s)
  = if has_focus el || spamMode s
       || negb (bool_decide ("focus" ∈ listeners s))
    then showPicker s else false.
Proof.
  intros Hin. destruct (elm_focus_picker s el Hin) as (Hp & _ & [el1 Hin1]).
  unfold run in *. unfold place.
  destruct (elm_focus s) as [[[]|] s1] eqn:Hfocus.
  2: { rewrite (elm_focus_run s el Hin) in Hfocus. discriminate. }
  erewrite bind_done by exact Hfocus. cbn in Hp.
  apply (preserves_run
           (λ s', showPicker s'
                  = (if has_focus el || spamMode s
                        || negb (bool_decide ("focus" ∈ listeners s))
                     then showPicker s else false))
           (elm_setSelectionRange p ;; write (set_caret p)) s1);
    [frame_all|exact Hp].
Qed.

(** X20. Spam mode keeps the picker open after an insertion. [insert]
    stores the [spamMode] it is given, and the next tick gives the focus
    back to the element: if the element had lost it, spam mode is off
    and [mounted] has added the [focus] listener, that listener closes
    the picker; in spam mode, when the element still had the focus, or
    when it has no [focus] listener, the picker stays as it was. *)
Theorem spam_mode_keeps_picker
    (s : state) (el : elm) (insertion : jsstr) (spam : bool) :
  ticks s = [] →
  input s = Some el →
  let s1 := flush (run (insert insertion spam) s) in
  showPicker s1
  = (if has_focus el || spam || negb (bool_decide ("focus" ∈ listeners s))
     then showPicker s else false)
  ∧ spamMode s1 = spam.
Proof.
  intros Hticks Hin s1. subst s1.
  rewrite insert_run, Hticks. cbv zeta.
  erewrite flush_two by reflexivity. cbn [run_job].
  match goal with |- context [run (place ?p) ?x] =>
    pose proof (place_picker p x el) as Hp;
    pose proof (preserves_run (λ s', spamMode s' = spam) (place p) x) as Hs
  end.
  split.
  - rewrite Hp by by destruct s. by destruct s.
  - apply Hs; [|by destruct s]. frame_all.
Qed.

Lemma spam_mode_keeps_picker_witness :
  showPicker (flush (run (insert (lit "x") true)
                       (set_showPicker true Demo.fresh))) = true
  ∧ showPicker (flush (run (insert (lit "x") false)
                         (set_showPicker true Demo.fresh))) = false
  ∧ showPicker
      (flush (run (insert (lit "x") false)
                (set_showPicker true
                   (mounted_state (lit ":sm") (Some Demo.field) true false))))
    = true.
Proof.
  split; [|split].
  - refine (eq_trans
              (proj1 (spam_mode_keeps_picker (set_showPicker true Demo.fresh)
                        Demo.field (lit "x") true eq_refl eq_refl)) _).
    vm_compute. reflexivity.
  - refine (eq_trans
              (proj1 (spam_mode_keeps_picker (set_showPicker true Demo.fresh)
                        Demo.field (lit "x") false eq_refl eq_refl)) _).
    vm_compute. reflexivity.
  - refine (eq_trans
              (proj1 (spam_mode_keeps_picker
                        (set_showPicker true
                           (mounted_state (lit ":sm") (Some Demo.field)
                              true false))
                        Demo.field (lit "x") false eq_refl eq_refl)) _).
    vm_compute. reflexivity.
Defined.

Lemma setCaret_run (s : state) (el : elm) :
  input s = Some el →
  setCaret Target_elm s = (Done tt, set_caret (Num (selectionStart el)) s).
Proof.
  intros Hin. unfold setCaret, target_selectionStart.
  erewrite bind_done; [reflexivity|].
  by erewrite bind_done by (unfold input_elm; by rewrite Hin).
Qed.

(** X21. [onInput] and [onCompositionUpdate], called with an event on
    the element, close the picker, take the caret from the element and
    resize before they emit: when [resize]
    goes through, the text of the element is emitted and queued as the
    new [value]; when [resize] throws (the panel is rendered without the
    picker), nothing is emitted and the typed text does not reach the
    parent. *)
Theorem onInput_emits_after_resize
    (s : state) (el : elm) (target_value : jsstr) :
  input s = Some el →
  let s1 := run (onInput Target_elm target_value) s in
  run (onCompositionUpdate Target_elm target_value) s = s1
  ∧ showPicker s1 = false
  ∧ caret s1 = Num (selectionStart el)
  ∧ (resize_throws s = false →
     log s1 = log s ++ resize_effects s ++ [Emit_input target_value]
     ∧ ticks s1 = ticks s ++ [Job_value target_value])
  ∧ (resize_throws s = true →
     log s1 = log s ++ resize_effects s ∧ ticks s1 = ticks s).
Proof.
  intros Hin s1. split; [reflexivity|]. subst s1.
  unfold run, onInput.
  erewrite bind_done by reflexivity.
  erewrite bind_done by (apply (setCaret_run _ el); by destruct s).
  match goal with |- context [resize ≫= _] =>
    match goal with |- context [mbind ?k resize ?x] =>
      pose proof (resize_run x) as Hresize;
      change (resize_throws x) with (resize_throws s) in Hresize;
      change (resize_effects x) with (resize_effects s) in Hresize;
      change (log x) with (log s) in Hresize
    end
  end.
  destruct (resize_throws s) eqn:Hthrows.
  - erewrite bind_thrown by exact Hresize. cbn [snd].
    split; [reflexivity|]. split; [reflexivity|].
    split; [discriminate|]. intros _. by split.
  - erewrite bind_done by exact Hresize.
    split; [reflexivity|]. split; [reflexivity|].
    split; [|discriminate]. intros _. split; [|reflexivity].
    unfold emit_input. erewrite bind_done by reflexivity.
    cbn. by rewrite <- app_assoc.
Qed.

(** An input event from a text field other than the element, on a
    component that found no element and renders no panel: the caret is
    taken from that field and the text is emitted. *)
Example onInput_from_another_field :
  let s := run (onInput (Target_other 2) (lit "hi"))
             (created (lit "") false false) in
  caret s = Num 2 ∧ log s = [Emit_input (lit "hi")].
Proof. by vm_compute. Qed.

Lemma onInput_emits_after_resize_witness :
  log (run (onInput Target_elm (lit ":smi")) Demo.fresh)
  = [Panel_top 30; Picker_top 30; Emit_input (lit ":smi")]
  ∧ log (run (onInput Target_elm (lit ":smi"))
           (mounted_state (lit ":sm") (Some Demo.field) true false))
    = [Panel_top 30].
Proof.
  split.
  - exact (proj1 (proj1 (proj2 (proj2 (proj2
             (onInput_emits_after_resize Demo.fresh Demo.field (lit ":smi")
                eq_refl)))) eq_refl)).
  - exact (proj1 (proj2 (proj2 (proj2 (proj2
             (onInput_emits_after_resize
                (mounted_state (lit ":sm") (Some Demo.field) true false)
                Demo.field (lit ":smi") eq_refl)))) eq_refl)).
Defined.

Section KeyUp.

Variable wordAtPosition : jsstr → Z → option Word.
Variable replaceWord : jsstr → caret_word → jsstr → outcome jsstr.
Variable suggest : jsstr → list Suggestion.

Abbreviation showSuggestions := (showSuggestions wordAtPosition suggest).
Abbreviation step := (step wordAtPosition replaceWord suggest).

(** X22. With events on the element: releasing Escape hides the
    suggestions, and releasing any
    other key, or the focus coming back, shows them again, as long as
    [resize] goes through; when it throws, the handlers end before they
    write the flag and it stays as it was. *)
Theorem escape_hides_suggestions (s : state) (el : elm) (key : string) :
  input s = Some el →
  let s1 := run (onKeyUp Target_elm key) s in
  caret s1 = Num (selectionStart el)
  ∧ (resize_throws s = false →
     temporarilyHideSuggestions s1 = bool_decide (key = "Escape")
     ∧ (key = "Escape" → showSuggestions s1 = false)
     ∧ temporarilyHideSuggestions (run (onFocus Target_elm) s) = false)
  ∧ (resize_throws s = true →
     temporarilyHideSuggestions s1 = temporarilyHideSuggestions s
     ∧ temporarilyHideSuggestions (run (onFocus Target_elm) s)
       = temporarilyHideSuggestions s).
Proof.
  intros Hin s1.
  assert (Hfocus : ∃ s0, input s0 = Some el
            ∧ resize_throws s0 = resize_throws s
            ∧ temporarilyHideSuggestions s0 = temporarilyHideSuggestions s
            ∧ run (onFocus Target_elm) s
              = run (setCaret Target_elm ;; resize ;;
                     write (set_temporarilyHideSuggestions false)) s0).
  { exists (focus_taken s). rewrite onFocus_run. unfold focus_taken.
    destruct (blurTimeout s), (spamMode s); by repeat split. }
  destruct Hfocus as (s0 & Hin0 & Hthrows0 & Hhidden0 & ->).
  assert (Hkeyup : ∀ (b : bool) s',
            input s' = Some el →
            let out := run (setCaret Target_elm ;; resize ;;
                            write (set_temporarilyHideSuggestions b)) s' in
            caret out = Num (selectionStart el)
            ∧ focused out = focused s'
            ∧ temporarilyHideSuggestions out
              = if resize_throws s' then temporarilyHideSuggestions s' else b).
  { intros b s' Hin' out. subst out. unfold run.
    erewrite bind_done by by apply (setCaret_run _ el).
    match goal with |- context [mbind ?k resize ?x] =>
      pose proof (resize_run x) as Hresize;
      change (resize_throws x) with (resize_throws s') in Hresize
    end.
    destruct (resize_throws s').
    - erewrite bind_thrown by exact Hresize. by repeat split.
    - erewrite bind_done by exact Hresize. by repeat split. }
  destruct (Hkeyup (bool_decide (key = "Escape")) s Hin) as (Hcaret & Hf & Hh).
  destruct (Hkeyup false s0 Hin0) as (_ & _ & Hh0).
  change (caret s1 = Num (selectionStart el)) in Hcaret.
  change (temporarilyHideSuggestions s1
          = if resize_throws s then temporarilyHideSuggestions s
            else bool_decide (key = "Escape")) in Hh.
  clear Hf. rewrite Hthrows0, Hhidden0 in Hh0.
  split; [exact Hcaret|]. split.
  - intros Hfine. rewrite Hfine in Hh, Hh0. split; [exact Hh|].
    split; [|exact Hh0]. intros Hkey. unfold EmojiInput.showSuggestions.
    rewrite Hh, (bool_decide_eq_true_2 _ Hkey). apply andb_false_r.
  - intros Hthrows. rewrite Hthrows in Hh, Hh0. by split.
Qed.

(** X23. A blur that no focus follows takes effect when its timer
    fires: until then [focused] is as it was; the callback then clears
    it, so that the suggestions are no longer shown, and takes the caret
    from the element. The timer is gone, but its id stays in
    [blurTimeout]. On a component that listens to [blur] these are two
    turns of the event loop. *)
Theorem blur_takes_effect_with_the_timer (s : state) (el : elm) :
  input s = Some el →
  has_focus el = true →
  let t := next_timer s in
  let s1 := run (onBlur Target_elm)
              (set_input (Some (with_focus false el)) s) in
  let s2 := run (run_callback (Cb_blur Target_elm))
              (set_timers (delete t (timers s1)) s1) in
  ("blur" ∈ listeners s → step s s1 ∧ step s1 s2)
  ∧ focused s1 = focused s
  ∧ focused s2 = false
  ∧ showSuggestions s2 = false
  ∧ caret s2 = Num (selectionStart el)
  ∧ timers s2 !! t = None
  ∧ blurTimeout s2 = Some t.
Proof.
  intros Hin Hfocus t s1 s2.
  assert (Hpending : timers s1 !! t = Some (Cb_blur Target_elm)).
  { subst s1 t. rewrite onBlur_run. cbn. apply lookup_insert_eq. }
  assert (Hrun : ∃ l, s2 =
            set_log l (set_caret (Num (selectionStart el))
                         (set_focused false
                            (set_timers (delete t (timers s1)) s1)))).
  { subst s2. unfold run at 1. cbn [run_callback]. unfold blurred.
    erewrite bind_done by reflexivity.
    erewrite bind_done
      by (apply (setCaret_run _ (with_focus false el)); subst s1;
          rewrite onBlur_run; reflexivity).
    rewrite resize_run. cbn [snd]. by eexists. }
  destruct Hrun as (l & Hrun).
  split.
  { intros Hheard. split; [|by apply (step_timer _ _ _ s1 t (Cb_blur Target_elm))].
    assert (Hs1 : s1 = run (deliver "blur" (onBlur Target_elm))
                         (set_input (Some (with_focus false el)) s)).
    { rewrite deliver_run.
      change (listeners (set_input _ s)) with (listeners s).
      by rewrite bool_decide_eq_true_2. }
    rewrite Hs1. by apply step_blur. }
  split; [subst s1; by rewrite onBlur_run|].
  rewrite Hrun. split; [reflexivity|]. split; [reflexivity|].
  split; [reflexivity|]. split.
  - cbn. apply lookup_delete_eq.
  - subst s1. by rewrite onBlur_run.
Qed.

End KeyUp.

Lemma escape_hides_suggestions_witness :
  temporarilyHideSuggestions
    (run (onKeyUp Target_elm "Escape") Demo.typing) = true
  ∧ showSuggestions Demo.one_word Demo.numbered
      (run (onKeyUp Target_elm "Escape") Demo.focused_once) = false
  ∧ temporarilyHideSuggestions
      (run (onKeyUp Target_elm "a")
         (run (onKeyUp Target_elm "Escape") Demo.typing)) = false.
Proof.
  destruct (escape_hides_suggestions Demo.one_word Demo.numbered
              Demo.typing Demo.field "Escape" eq_refl) as (_ & Hfine & _).
  destruct (Hfine eq_refl) as (Hhidden & _ & _).
  destruct (escape_hides_suggestions Demo.one_word Demo.numbered
              Demo.focused_once (with_focus true Demo.field) "Escape")
    as (_ & Hfine' & _); [vm_compute; reflexivity|].
  destruct Hfine' as (_ & Hshown & _); [vm_compute; reflexivity|].
  destruct (escape_hides_suggestions Demo.one_word Demo.numbered
              (run (onKeyUp Target_elm "Escape") Demo.typing) Demo.field "a")
    as (_ & Hfine'' & _); [vm_compute; reflexivity|].
  destruct Hfine'' as (Hback & _ & _); [vm_compute; reflexivity|].
  split; [exact Hhidden|]. split; [by apply Hshown|exact Hback].
Defined.

Lemma blur_takes_effect_with_the_timer_witness :
  let s1 := run (onBlur Target_elm)
              (set_input (Some (with_focus false (with_focus true Demo.field)))
                 Demo.focused_once) in
  let s2 := run (run_callback (Cb_blur Target_elm))
              (set_timers (delete 1%positive (timers s1)) s1) in
  step Demo.one_word Demo.splice_word Demo.numbered Demo.focused_once s1
  ∧ step Demo.one_word Demo.splice_word Demo.numbered s1 s2
  ∧ focused s1 = true ∧ focused s2 = false ∧ blurTimeout s2 = Some 1%positive.
Proof.
  intros s1 s2.
  destruct (blur_takes_effect_with_the_timer Demo.one_word Demo.splice_word
              Demo.numbered Demo.focused_once (with_focus true Demo.field))
    as (Hsteps & Hkept & Hcleared & _ & _ & _ & Hstale);
    [vm_compute; reflexivity|reflexivity|].
  destruct Hsteps as [Hfirst Hsecond]; [by vm_compute|].
  split; [exact Hfirst|]. split; [exact Hsecond|].
  split; [exact Hkept|]. split; [exact Hcleared|exact Hstale].
Defined.

Import EmojiInputKeys.

Section Dispatch.

Variable wordAtPosition : jsstr → Z → option Word.
Variable replaceWord : jsstr → caret_word → jsstr → outcome jsstr.
Variable suggest : jsstr → list Suggestion.

Abbreviation onKeyDown := (onKeyDown wordAtPosition replaceWord suggest).
Abbreviation cycleForward := (cycleForward wordAtPosition suggest).
Abbreviation cycleBackward := (cycleBackward wordAtPosition suggest).

Lemma cycleForward_done (s : state) : (cycleForward s).1 = Done tt.
Proof.
  unfold EmojiInput.cycleForward, mbind, emoji_bind, read, write. cbn.
  destruct (1 <? len _); cbn; [|done].
  by destruct (len _ <=? highlighted s + 1).
Qed.

Lemma cycleBackward_done (s : state) : (cycleBackward s).1 = Done tt.
Proof.
  unfold EmojiInput.cycleBackward, mbind, emoji_bind, read, write. cbn.
  destruct (1 <? len _); cbn; [|done].
  by destruct (highlighted s - 1 <? 0).
Qed.

Lemma run_then (m k : M unit) (s : state) :
  (m s).1 = Done tt → run (m ;; k) s = run k (run m s).
Proof.
  intros Hm. unfold run. destruct (m s) as [o s'] eqn:Hrun.
  cbn in Hm. subst o. by erewrite bind_done by exact Hrun.
Qed.

Lemma then_done (m k : M unit) (s : state) :
  (m s).1 = Done tt → (k (run m s)).1 = Done tt → ((m ;; k) s).1 = Done tt.
Proof.
  intros Hm Hk. unfold run in Hk. destruct (m s) as [o s'] eqn:Hrun.
  cbn in Hm. subst o. by erewrite bind_done by exact Hrun.
Qed.

Abbreviation key_cycle := (key_cycle wordAtPosition suggest).

Ltac decide_key key :=
  repeat match goal with
         | H : key = _ |- _ => rewrite (bool_decide_eq_true_2 _ H)
         | H : key ≠ _ |- _ => rewrite (bool_decide_eq_false_2 _ H)
         end.

Ltac cycle_done :=
  repeat first
    [ apply cycleForward_done | apply cycleBackward_done
    | apply then_done | reflexivity ].

Lemma onKeyDown_cycles
    (s : state) (ctrlKey shiftKey : bool) (key : string) :
  temporarilyHideSuggestions s = false →
  key ≠ "Enter" →
  key ≠ "Escape" →
  run (onKeyDown ctrlKey shiftKey key) s
  = run (write (set_showPicker false) ;; resize)
      (run (key_cycle shiftKey key) s).
Proof.
  intros Hshown Henter Hescape. unfold EmojiInput.onKeyDown, EmojiInputKeys.key_cycle.
  unfold run at 1. erewrite bind_done by reflexivity. rewrite Hshown.
  match goal with
  | |- (mbind ?k ?m s).2 = _ => change ((mbind k m s).2) with (run (m ;; k tt) s)
  end.
  destruct (decide (key = "Tab")) as [Htab|Htab].
  - assert (key ≠ "ArrowUp") by (by rewrite Htab).
    assert (key ≠ "ArrowDown") by (by rewrite Htab).
    decide_key key. cbn [negb when].
    destruct shiftKey; by rewrite !run_then by cycle_done.
  - destruct (decide (key = "ArrowUp")) as [Hup|Hup].
    + decide_key key. cbn [negb when].
      by rewrite !run_then by cycle_done.
    + destruct (decide (key = "ArrowDown")) as [Hdown|Hdown];
        decide_key key; cbn [negb when];
        by rewrite !run_then by cycle_done.
Qed.

(** X24. While the suggestions are not hidden, Tab and ArrowDown move
    the highlight as [cycleForward] does, Shift+Tab and ArrowUp as
    [cycleBackward] does, and a key other than these, Enter and Escape
    leaves it where it is; none of them touches the text, the caret or
    the queue for the next tick, and each closes the picker. *)
Theorem keys_move_the_highlight
    (s : state) (ctrlKey shiftKey : bool) (key : string) :
  temporarilyHideSuggestions s = false →
  key ≠ "Enter" →
  key ≠ "Escape" →
  let s1 := run (onKeyDown ctrlKey shiftKey key) s in
  highlighted s1
  = (if bool_decide (key = "ArrowDown")
        || bool_decide (key = "Tab") && negb shiftKey
     then highlighted (run cycleForward s)
     else if bool_decide (key = "ArrowUp")
             || bool_decide (key = "Tab") && shiftKey
     then highlighted (run cycleBackward s)
     else highlighted s)
  ∧ value s1 = value s
  ∧ caret s1 = caret s
  ∧ ticks s1 = ticks s
  ∧ showPicker s1 = false.
Proof.
  intros Hshown Henter Hescape s1. subst s1.
  rewrite onKeyDown_cycles by done.
  set (s0 := run (key_cycle shiftKey key) s).
  assert (Hkept : value s0 = value s ∧ caret s0 = caret s ∧ ticks s0 = ticks s).
  { apply (preserves_run
             (λ s', value s' = value s ∧ caret s' = caret s
                    ∧ ticks s' = ticks s)); [|done].
    unfold EmojiInputKeys.key_cycle.
    repeat lazymatch goal with
           | |- context [bool_decide ?P] => destruct (bool_decide P)
           | |- context [if shiftKey then _ else _] => destruct shiftKey
           end; frame_all. }
  assert (Hhigh : highlighted s0
            = (if bool_decide (key = "ArrowDown")
                  || bool_decide (key = "Tab") && negb shiftKey
               then highlighted (run cycleForward s)
               else if bool_decide (key = "ArrowUp")
                       || bool_decide (key = "Tab") && shiftKey
               then highlighted (run cycleBackward s)
               else highlighted s)).
  { subst s0. unfold EmojiInputKeys.key_cycle.
    destruct (decide (key = "Tab")) as [Htab|Htab].
    - assert (key ≠ "ArrowUp") by (by rewrite Htab).
      assert (key ≠ "ArrowDown") by (by rewrite Htab).
      decide_key key. by destruct shiftKey.
    - destruct (decide (key = "ArrowUp")) as [Hup|Hup].
      + assert (key ≠ "ArrowDown") by (by rewrite Hup).
        by decide_key key.
      + destruct (decide (key = "ArrowDown")); by decide_key key. }
  rewrite <- Hhigh. destruct Hkept as (Hv & Hc & Ht).
  rewrite <- Hv, <- Hc, <- Ht. clearbody s0.
  unfold run. erewrite bind_done by reflexivity.
  rewrite resize_run. by repeat split.
Qed.

End Dispatch.

Lemma keys_move_the_highlight_witness :
  let down := run (onKeyDown Demo.one_word Demo.splice_word Demo.numbered
                     false false "ArrowDown") in
  let up := run (onKeyDown Demo.one_word Demo.splice_word Demo.numbered
                   false true "Tab") in
  highlighted (down Demo.focused_once) = 1
  ∧ highlighted (up (down Demo.focused_once)) = 0.
Proof.
  intros down up.
  destruct (keys_move_the_highlight Demo.one_word Demo.splice_word
              Demo.numbered Demo.focused_once false false "ArrowDown")
    as (Hdown & _); [reflexivity|done|done|].
  destruct (keys_move_the_highlight Demo.one_word Demo.splice_word
              Demo.numbered (down Demo.focused_once) false true "Tab")
    as (Hup & _); [vm_compute; reflexivity|done|done|].
  split.
  - exact (eq_trans Hdown eq_refl).
  - exact (eq_trans Hup eq_refl).
Defined.

(** ** The component's life cycle *)

Lemma find_first (f : slot → bool) (before after : list slot) (node : slot) :
  Forall (λ n, f n = false) before →
  f node = true →
  find f (before ++ node :: after) = Some node.
Proof.
  intros Hbefore Hnode. induction Hbefore as [|n before Hn _ IH]; cbn.
  - by rewrite Hnode.
  - by rewrite Hn.
Qed.

Lemma find_none (f : slot → bool) (nodes : list slot) :
  Forall (λ n, f n = false) nodes → find f nodes = None.
Proof.
  intros Hnodes. induction Hnodes as [|n nodes Hn _ IH]; cbn; [done|].
  by rewrite Hn.
Qed.

(** X25. [mounted] takes the first input or textarea of the default
    slot as the element, whatever stands before or after it. It then
    listens to the seven events on it, unless [resize] throws (the
    panel is rendered without the picker): then the element is set but
    no listener is added. [unmounted] leaves none of the seven. *)
Theorem mounted_listens_to_the_first_field
    (before after : list slot) (node : slot) (s : state) :
  Forall (λ n, is_field n = false) before →
  is_field node = true →
  let s1 := mounted (Some (before ++ node :: after)) s in
  input s1 = Some (slot_elm node)
  ∧ value s1 = value s
  ∧ listeners s1
    = (if refs_panel s && negb (refs_picker s)
       then listeners s
       else listeners s ∪ list_to_set listened)
  ∧ listeners (unmounted s1) ## list_to_set listened.
Proof.
  intros Hbefore Hnode s1.
  assert (Hs1 : s1 =
            let s0 := set_input (Some (slot_elm node)) s in
            let s' := set_log (log s0 ++ resize_effects s0) s0 in
            if resize_throws s0 then s'
            else set_listeners (listeners s ∪ list_to_set listened) s').
  { subst s1. unfold mounted.
    rewrite (find_first _ _ _ _ Hbefore Hnode), resize_run.
    cbv zeta. destruct (resize_throws _); by destruct before. }
  rewrite Hs1. cbv zeta.
  change (resize_throws (set_input (Some (slot_elm node)) s))
    with (refs_panel s && negb (refs_picker s)).
  destruct (refs_panel s && negb (refs_picker s)).
  - split; [reflexivity|]. split; [reflexivity|]. split; [reflexivity|].
    unfold unmounted. cbn [input set_log set_input].
    apply elem_of_disjoint. intros x Hx Hl.
    by apply elem_of_difference in Hx as [_ Hx].
  - split; [reflexivity|]. split; [reflexivity|]. split; [reflexivity|].
    unfold unmounted. cbn [input set_log set_input set_listeners].
    apply elem_of_disjoint. intros x Hx Hl.
    by apply elem_of_difference in Hx as [_ Hx].
Qed.

(** The state the event loop starts from is the one [mounted] leaves on
    a component just created, its effects not counted. *)
Lemma mounted_state_mounted
    (before after : list slot) (node : slot) (v : jsstr)
    (panel picker : bool) :
  Forall (λ n, is_field n = false) before →
  is_field node = true →
  set_log [] (mounted (Some (before ++ node :: after))
                (created v panel picker))
  = mounted_state v (Some (slot_elm node)) panel picker.
Proof.
  intros Hbefore Hnode.
  assert (Hs1 : mounted (Some (before ++ node :: after))
                  (created v panel picker) =
            let s0 := set_input (Some (slot_elm node))
                        (created v panel picker) in
            let s' := set_log (log s0 ++ resize_effects s0) s0 in
            if resize_throws s0 then s'
            else set_listeners (listeners s0 ∪ list_to_set listened) s').
  { unfold mounted.
    rewrite (find_first _ _ _ _ Hbefore Hnode), resize_run.
    cbv zeta. destruct (resize_throws _); by destruct before. }
  rewrite Hs1. cbv zeta.
  change (resize_throws (set_input (Some (slot_elm node))
                           (created v panel picker)))
    with (panel && negb picker).
  destruct (panel && negb picker) eqn:Hthrows.
  all: apply state_ext; try reflexivity.
  all: unfold mounted_state, mounted_listeners;
       cbn [listeners set_log set_listeners set_input created mounted_state];
       rewrite ?Hthrows; reflexivity.
Qed.

(** X26. When the default slot is missing, empty or holds no input or
    textarea, [mounted] changes nothing: no element is set and no
    listener added; [unmounted] then has nothing to remove. The
    component is left without an element, so that [resize] throws
    whenever the panel is rendered. *)
Theorem mounted_without_field (slots : option (list slot)) (s : state) :
  match slots with
  | Some nodes => Forall (λ n, is_field n = false) nodes
  | None => True
  end →
  mounted slots s = s
  ∧ (input s = None →
     unmounted (mounted slots s) = s
     ∧ (refs_panel s = true → (resize s).1 = Thrown)).
Proof.
  intros Hnone.
  assert (Hsame : mounted slots s = s).
  { destruct slots as [nodes|]; [|done]. unfold mounted.
    rewrite (find_none _ _ Hnone). by destruct nodes. }
  split; [exact Hsame|]. intros Hin. rewrite Hsame. split.
  - unfold unmounted. by rewrite Hin.
  - intros Hpanel. rewrite resize_run. unfold resize_throws.
    by rewrite Hin, Hpanel.
Qed.

Lemma mounted_listens_to_the_first_field_witness :
  let label := Slot "label" Demo.field in
  let area := Slot "textarea" Demo.field in
  let other := Slot "input" (with_focus true Demo.field) in
  let s1 := mounted (Some [label; area; other])
              (created (lit "") true true) in
  input s1 = Some Demo.field
  ∧ listeners s1 = list_to_set listened
  ∧ listeners (mounted (Some [label; area; other])
                 (created (lit "") true false)) = ∅.
Proof.
  intros label area other s1.
  destruct (mounted_listens_to_the_first_field [label] [other] area
              (created (lit "") true true))
    as (Hin & _ & Hon & _); [by repeat constructor|reflexivity|].
  destruct (mounted_listens_to_the_first_field [label] [other] area
              (created (lit "") true false))
    as (_ & _ & Hoff & _); [by repeat constructor|reflexivity|].
  split; [exact Hin|]. split.
  - refine (eq_trans Hon _). vm_compute. reflexivity.
  - exact Hoff.
Defined.

Lemma mounted_without_field_witness :
  mounted (Some [Slot "div" Demo.field]) (created (lit "") true true)
  = created (lit "") true true.
Proof.
  apply (mounted_without_field (Some [Slot "div" Demo.field])).
  by repeat constructor.
Defined.

End EmojiInputProps.

(** * More on registration.js *)

Module RegistrationMore.
Import Registration.

Lemma attempt_run (reply : settled response) (d : data) :
  attempt reply d =
    let d1 := state_of (submit d) in
    match reply with
    | Fulfilled r =>
        let '(k, d2, t2) := submit_then r d1 in
        match k with
        | Some (Fulfilled p) =>
            let '(_, d3, t3) := json_then p d2 in
            (tt, d3, trace_of (submit d) ++ t2 ++ t3)
        | _ => (tt, d2, trace_of (submit d) ++ t2 ++ [])
        end
    | _ => (tt, d1, trace_of (submit d) ++ [])
    end.
Proof.
  unfold attempt. rewrite RegistrationProps.bind_run.
  destruct (submit d) as [[[] d1] t1] eqn:Hsubmit.
  unfold state_of, trace_of. cbn [fst snd].
  destruct reply as [r| |]; try reflexivity.
  rewrite RegistrationProps.bind_run.
  destruct (submit_then r d1) as [[[[p| |]|] d2] t2]; try reflexivity.
  by destruct (json_then p d2) as [[[] d3] t3].
Qed.

Lemma submit_then_state (r : response) (d : data) :
  state_of (submit_then r d)
  = {| user := user d; error := error d; registering := false |}.
Proof. unfold submit_then. by destruct (ok r). Qed.

Lemma submit_then_asks (r : response) (d : data) :
  (submit_then r d).1.1 = if ok r then None else Some (body r).
Proof. unfold submit_then. by destruct (ok r). Qed.

Lemma json_then_state (p : json) (d : data) :
  state_of (json_then p d)
  = {| user := user d;
       error := default (error d) (json_prop p "error");
       registering := registering d |}.
Proof. unfold json_then. destruct (json_prop p "error"); by destruct d. Qed.

(** The data at the end of an attempt, whatever the reply is. *)
Lemma attempt_state (reply : settled response) (d : data) :
  state_of (attempt reply d) =
    {| user := <["nickname" := prop (user d) "username"]> (user d);
       error :=
         match reply with
         | Fulfilled r =>
             if ok r then error d
             else match body r with
                  | Fulfilled p => default (error d) (json_prop p "error")
                  | _ => error d
                  end
         | _ => error d
         end;
       registering :=
         match reply with
         | Fulfilled _ => false
         | _ => true
         end |}.
Proof.
  rewrite attempt_run. cbv zeta.
  destruct reply as [r| |]; try reflexivity.
  pose proof (submit_then_state r (state_of (submit d))) as Hstate.
  pose proof (submit_then_asks r (state_of (submit d))) as Hasks.
  destruct (submit_then r _) as [[k d2] t2]. cbn in Hstate, Hasks. subst k d2.
  destruct (ok r); [reflexivity|].
  destruct (body r) as [p| |]; try reflexivity.
  pose proof (json_then_state p
    {| user := user (state_of (submit d)); error := error (state_of (submit d));
       registering := false |}) as Hjson.
  destruct (json_then p _) as [[[] d3] t3]. cbn in Hjson. by subst d3.
Qed.

(** X1. [then] is given a fulfilment handler only, so [registering]
    is cleared exactly when [register] resolves. When it rejects or
    never settles the flag stays set for good: the request was sent,
    and nothing else happens; no login, no navigation, and [error] is
    not written. *)
Theorem no_response_keeps_registering
    (d : data) (reply : settled response) :
  (registering (state_of (attempt reply d)) = false
   ↔ ∃ r, reply = Fulfilled r)
  ∧ (registering (state_of (attempt reply d)) = true →
     trace_of (attempt reply d) =
       [Write_registering true;
        Write_nickname (prop (user d) "username");
        Call_register (<["nickname" := prop (user d) "username"]> (user d))]
     ∧ error (state_of (attempt reply d)) = error d).
Proof.
  rewrite attempt_state. cbn [registering error]. split.
  - destruct reply as [r| |]; split; try done; try by eauto.
    all: by intros [r' ?].
  - intros Hset. destruct reply as [r| |]; [done| |];
      rewrite attempt_run; cbv zeta; unfold trace_of; cbn [fst snd];
      by rewrite RegistrationProps.submit_run.
Qed.

(** X2. On a response with [ok] set the component dispatches
    [loginUser] with the user as sent to [register] (its nickname being
    the username), then navigates to ['/main/all'], then clears
    [registering]; it does not read the body, and [error] is what it
    was before. *)
Theorem submit_success_logs_in (d : data) (r : response) :
  ok r = true →
  let out := attempt (Fulfilled r) d in
  let u := <["nickname" := prop (user d) "username"]> (user d) in
  trace_of out =
    [Write_registering true;
     Write_nickname (prop (user d) "username");
     Call_register u;
     Call_dispatch "loginUser" u;
     Call_push "/main/all";
     Write_registering false]
  ∧ prop u "nickname" = prop u "username"
  ∧ error (state_of out) = error d
  ∧ registering (state_of out) = false.
Proof.
  intros Hok out u. subst out. split; [|split].
  - rewrite attempt_run. cbv zeta. unfold submit_then. rewrite Hok. reflexivity.
  - subst u. unfold prop. rewrite lookup_insert_eq.
    destruct (decide ("nickname" = "username")) as [Heq|Hne]; [done|].
    by rewrite lookup_insert_ne.
  - rewrite attempt_state, Hok. by split.
Qed.

Lemma submit_success_logs_in_witness :
  let r := {| ok := true; body := Pending |} in
  let d := {| user := {[ "username" := VStr (lit "lain") ]};
              error := VStr (lit "earlier"); registering := false |} in
  error (state_of (attempt (Fulfilled r) d)) = VStr (lit "earlier")
  ∧ registering (state_of (attempt (Fulfilled r) d)) = false.
Proof.
  intros r d.
  destruct (submit_success_logs_in d r eq_refl) as (_ & _ & Herr & Hreg).
  by split.
Defined.

(** X3. Whatever the reply, an attempt changes one property of [user]:
    [nickname], which gets the value of [username] ([undefined] when
    there is none); a nickname typed before is lost, every other
    property stays. *)
Theorem submit_overwrites_only_nickname
    (d : data) (reply : settled response) :
  let u := user (state_of (attempt reply d)) in
  u = <["nickname" := prop (user d) "username"]> (user d)
  ∧ u !! "nickname" = Some (prop (user d) "username")
  ∧ (∀ k, k ≠ "nickname" → u !! k = user d !! k).
Proof.
  intros u. subst u. rewrite attempt_state. cbn.
  split; [done|]. split; [apply lookup_insert_eq|].
  intros k Hk. by apply lookup_insert_ne.
Qed.

(** X4. [error] is written in one case only: the response has [ok]
    unset, its body parses, and the payload is not [null]; then it
    becomes the payload's [error] property ([undefined] when the payload
    has none). In every other case, also on success and while the
    request runs, an earlier error stays. *)
Theorem error_written_only_from_payload
    (d : data) (reply : settled response) :
  error (state_of (submit d)) = error d
  ∧ error (state_of (attempt reply d)) =
      match reply with
      | Fulfilled {| ok := false; body := Fulfilled (JObject o) |} =>
          prop o "error"
      | Fulfilled {| ok := false; body := Fulfilled (JPrim VNull) |}
      | Fulfilled {| ok := false; body := Fulfilled (JPrim VUndefined) |} =>
          error d
      | Fulfilled {| ok := false; body := Fulfilled (JPrim _) |} =>
          VUndefined
      | _ => error d
      end.
Proof.
  split; [reflexivity|]. rewrite attempt_state. cbn.
  destruct reply as [[[] [[o|[]]| |]]| |]; reflexivity.
Qed.

Example stale_error_on_retry :
  let failed := {| ok := false;
                   body := Fulfilled (JObject {[ "error" := VStr (lit "taken") ]}) |} in
  let d1 := state_of (attempt (Fulfilled failed) initial) in
  error d1 = VStr (lit "taken")
  ∧ error (state_of (submit d1)) = VStr (lit "taken")
  ∧ error (state_of (attempt (Fulfilled {| ok := true; body := Pending |}) d1))
    = VStr (lit "taken").
Proof. vm_compute. done. Qed.

End RegistrationMore.

(** * More on the navigation panel *)

Module NavPanelMore.
Import NavPanel NavCatalogue.

Section WithImports.

Context {Props User Filtered Lists : Type}.
Variable TIMELINES ROOT_ITEMS : list (string * Props).
Variable getListEntries : store User Lists → list (item Props).
Variable filterNavigation :
  list (item Props) → options Props User → Filtered.

Abbreviation pinnedList_items :=
  (pinnedList_items TIMELINES ROOT_ITEMS getListEntries).
Abbreviation pinnedList :=
  (pinnedList TIMELINES ROOT_ITEMS getListEntries filterNavigation).
Abbreviation navigation_items :=
  (navigation_items TIMELINES ROOT_ITEMS getListEntries).

Lemma pinned_entries_filter
    (st : store User Lists) (T : list (string * Props)) :
  pinned_entries getListEntries st T
  = filter (λ e, name e ∈ pinnedItems_of st) (entries T).
Proof.
  unfold pinned_entries, entries.
  rewrite (NavPanelProps.this_pinnedItems getListEntries st).
  induction T as [|[k v] T IH]; [done|].
  rewrite fmap_cons, !filter_cons.
  destruct (decide (k ∈ pinnedItems_of st)) as [Hk|Hk].
  - rewrite decide_True by (cbn; by apply bool_decide_eq_true).
    rewrite decide_True by done. by rewrite fmap_cons, IH.
  - rewrite decide_False by (cbn; by rewrite bool_decide_eq_false_2).
    by rewrite decide_False by done.
Qed.

Lemma pinnedList_items_filter (st : store User Lists) :
  pinnedList_items st
  = filter (λ e, name e ∈ pinnedItems_of st) (navigation_items st).
Proof.
  unfold NavPanel.pinnedList_items, NavCatalogue.navigation_items.
  rewrite !filter_app, !pinned_entries_filter.
  rewrite (NavPanelProps.this_pinnedItems getListEntries st),
    (NavPanelProps.this_lists getListEntries st).
  f_equal. f_equal. cbn.
  induction (getListEntries st) as [|e l IH]; [done|].
  rewrite !filter_cons.
  destruct (decide (name e ∈ pinnedItems_of st)) as [He|He].
  - rewrite decide_True by (cbn; by apply bool_decide_eq_true).
    by rewrite IH.
  - by rewrite decide_False by (cbn; by rewrite bool_decide_eq_false_2).
Qed.

(** X5. The list handed to [filterNavigation] is what remains of the
    timelines, the user's lists and the root items, taken in that
    order, when the items whose name is not pinned are left out:
    nothing pinned and on offer is dropped, nothing is moved, and a
    pinned name that no item bears shows nothing. With no pin the list
    is empty. *)
Theorem pinnedList_items_are_the_pinned_offer (st : store User Lists) :
  pinnedList_items st
  = filter (λ e, name e ∈ pinnedItems_of st) (navigation_items st)
  ∧ pinnedList_items st `sublist_of` navigation_items st
  ∧ (∀ e, e ∈ pinnedList_items st
          ↔ e ∈ navigation_items st ∧ name e ∈ prefs_pinnedNavItems st)
  ∧ (prefs_pinnedNavItems st = [] → pinnedList_items st = []).
Proof.
  rewrite pinnedList_items_filter. split; [done|].
  split; [apply sublist_filter|]. split.
  - intros e. rewrite list_elem_of_filter. unfold pinnedItems_of.
    rewrite elem_of_list_to_set. tauto.
  - intros Hnone. unfold pinnedItems_of. rewrite Hnone. cbn.
    induction (navigation_items st) as [|e l IH]; [done|].
    rewrite filter_cons. rewrite decide_False by set_solver. done.
Qed.

(** X6. Only which names are pinned matters, not their order in
    [pinnedNavItems] nor how often a name occurs there: two stores that
    differ in [pinnedNavItems] but pin the same names give the same
    pinned list, in the order of the timelines, lists and root
    items. *)
Theorem pinnedList_ignores_pin_order
    (st : store User Lists) (pins : list string) :
  (∀ x, x ∈ pins ↔ x ∈ prefs_pinnedNavItems st) →
  getListEntries (with_pins pins st) = getListEntries st →
  pinnedList_items (with_pins pins st) = pinnedList_items st
  ∧ pinnedList (with_pins pins st) = pinnedList st.
Proof.
  intros Hsame Hlists.
  assert (Hset : pinnedItems_of (with_pins pins st) = pinnedItems_of st).
  { unfold pinnedItems_of. cbn. apply set_eq. intros x.
    rewrite !elem_of_list_to_set. apply Hsame. }
  assert (Hitems : pinnedList_items (with_pins pins st) = pinnedList_items st).
  { rewrite !pinnedList_items_filter. unfold NavCatalogue.navigation_items.
    by rewrite Hset, Hlists. }
  split; [done|]. unfold NavPanel.pinnedList. by rewrite Hitems.
Qed.

End WithImports.

Import Demo.

Lemma pinnedList_ignores_pin_order_witness :
  let T := [("home", 1%nat); ("public", 2%nat)] in
  let R := [("interactions", 3%nat); ("chats", 4%nat)] in
  pinnedList_items T R demo_lists
    (with_pins ["chats"; "gone"; "home"; "chats"; "list-7"] (demo_store VNull))
  = pinnedList_items T R demo_lists (demo_store VNull).
Proof.
  intros T R.
  apply (pinnedList_ignores_pin_order T R demo_lists
           (λ l (o : options nat unit), l) (demo_store VNull)
           ["chats"; "gone"; "home"; "chats"; "list-7"]).
  - intros x. cbn. rewrite !elem_of_cons, !elem_of_nil. tauto.
  - reflexivity.
Defined.

End NavPanelMore.

(** * More on the follow suggestions *)

Module WhoToFollowMore.
Import WhoToFollow WhoToFollowRequest.

Lemma show_from (reply : list obj) (acc : data * list event) :
  foldl show_one acc reply =
    ({| users := users acc.1 ++ (make_user <$> reply) |},
     acc.2 ++ imap (λ k i, Call_externalProfile (prop i "acct")
                             (length (users acc.1) + k)) reply).
Proof.
  revert acc. induction reply as [|i reply IH]; intros [[us] t].
  - cbn. by rewrite !app_nil_r.
  - cbn [foldl]. rewrite IH. cbn. rewrite <- !app_assoc. cbn.
    rewrite length_app, Nat.add_0_r. cbn. do 3 f_equal.
    apply imap_ext. intros k j _. cbn. f_equal. lia.
Qed.

Lemma showWhoToFollow_run (reply : list obj) (d : data) :
  showWhoToFollow reply d =
    ({| users := users d ++ (make_user <$> reply) |},
     imap (λ k i, Call_externalProfile (prop i "acct") (length (users d) + k))
       reply).
Proof. unfold showWhoToFollow. by rewrite show_from. Qed.

Lemma externalProfile_then_clean (idx : nat) (externalUser : obj) (d : data) :
  truthy (prop externalUser "error") = false →
  externalProfile_then idx externalUser d =
    ({| users := alter (<["id" := prop externalUser "id"]>) idx (users d) |},
     [Commit_addNewUsers [externalUser]]).
Proof. intros Hclean. unfold externalProfile_then. by rewrite Hclean. Qed.

(** X7. The callback of [externalProfile] does nothing when the profile
    has a truthy [error]. Otherwise it commits [addNewUsers] with the
    profile and writes the profile's [id] into the user it was created
    for: the list keeps its length, every other user is as before, and
    that user keeps all its other properties. *)
Theorem externalProfile_then_sets_one_id
    (idx : nat) (externalUser : obj) (d : data) :
  let out := externalProfile_then idx externalUser d in
  (truthy (prop externalUser "error") = true → out = (d, []))
  ∧ (truthy (prop externalUser "error") = false →
     out.2 = [Commit_addNewUsers [externalUser]]
     ∧ length (users out.1) = length (users d)
     ∧ (∀ j, j ≠ idx → users out.1 !! j = users d !! j)
     ∧ (∀ u, users d !! idx = Some u →
          ∃ u', users out.1 !! idx = Some u'
                ∧ u' !! "id" = Some (prop externalUser "id")
                ∧ ∀ k, k ≠ "id" → u' !! k = u !! k)).
Proof.
  intros out. subst out. split.
  - intros Herr. unfold externalProfile_then. by rewrite Herr.
  - intros Hclean. rewrite externalProfile_then_clean by done. cbn.
    split; [done|]. split; [apply length_alter|]. split.
    + intros j Hj. by apply list_lookup_alter_ne.
    + intros u Hu. eexists. split.
      * rewrite list_lookup_alter_eq, Hu. reflexivity.
      * split; [apply lookup_insert_eq|]. intros k Hk.
        by apply lookup_insert_ne.
Qed.

Lemma externalProfile_then_sets_one_id_witness :
  let d := {| users := [ {[ "id" := VNum 0; "name" := VStr (lit "a") ]};
                          {[ "id" := VNum 0; "name" := VStr (lit "b") ]} ] |} in
  let found : obj := {[ "id" := VNum 42 ]} in
  let failed : obj := {[ "error" := VStr (lit "not found") ]} in
  externalProfile_then 1 failed d = (d, [])
  ∧ users (externalProfile_then 1 found d).1 !! 0%nat = users d !! 0%nat
  ∧ length (users (externalProfile_then 1 found d).1) = 2%nat.
Proof.
  intros d found failed.
  destruct (externalProfile_then_sets_one_id 1 failed d) as [Hfailed _].
  destruct (externalProfile_then_sets_one_id 1 found d) as [_ Hfound].
  destruct (Hfound eq_refl) as (_ & Hlen & Hothers & _).
  split; [exact (Hfailed eq_refl)|]. split; [by apply Hothers|exact Hlen].
Defined.

(** X8. Each [externalProfile] call made by [showWhoToFollow] asks for
    the [acct] of its reply entry and is tied to the user built from
    that very entry: when the profile of the [k]-th entry arrives
    without error, the [k]-th appended user gets the profile's [id] and
    keeps its name, screen name and avatar; no other user changes. *)
Theorem profile_reaches_its_user
    (reply : list obj) (d : data) (k : nat) (i externalUser : obj) :
  reply !! k = Some i →
  truthy (prop externalUser "error") = false →
  let shown := showWhoToFollow reply d in
  let idx := (length (users d) + k)%nat in
  shown.2 !! k = Some (Call_externalProfile (prop i "acct") idx)
  ∧ users shown.1 !! idx = Some (make_user i)
  ∧ users (externalProfile_then idx externalUser shown.1).1
    = users d
      ++ <[k := <["id" := prop externalUser "id"]> (make_user i)]>
           (make_user <$> reply)
  ∧ (∀ p, p ≠ "id" →
       prop (<["id" := prop externalUser "id"]> (make_user i)) p
       = prop (make_user i) p).
Proof.
  intros Hi Hclean shown idx. subst shown idx.
  rewrite showWhoToFollow_run. cbn [fst snd users].
  assert (Hlt : (k < length reply)%nat) by by eapply lookup_lt_Some.
  split; [|split; [|split]].
  - by rewrite list_lookup_imap, Hi.
  - rewrite lookup_app_r by lia.
    replace (length (users d) + k - length (users d))%nat with k by lia.
    by rewrite list_lookup_fmap, Hi.
  - rewrite externalProfile_then_clean by done. cbn [fst users].
    rewrite alter_app_r.
    f_equal. apply list_eq. intros j.
    destruct (decide (j = k)) as [->|Hne].
    + rewrite list_lookup_alter_eq, list_lookup_insert_eq
        by (rewrite length_fmap; lia).
      by rewrite list_lookup_fmap, Hi.
    + by rewrite list_lookup_alter_ne, list_lookup_insert_ne by done.
  - intros p Hp. unfold prop. by rewrite lookup_insert_ne.
Qed.

Lemma profile_reaches_its_user_witness :
  let reply : list obj :=
    [ {[ "acct" := VStr (lit "a@x"); "avatar" := VStr (lit "/a.png") ]};
      {[ "acct" := VStr (lit "b@x") ]} ] in
  let shown := showWhoToFollow reply {| users := [] |} in
  shown.2 !! 1%nat = Some (Call_externalProfile (VStr (lit "b@x")) 1)
  ∧ (λ u, prop u "id")
      <$> users (externalProfile_then 1 {[ "id" := VNum 7 ]} shown.1).1
    = [VNum 0; VNum 7].
Proof.
  intros reply shown.
  assert (Hclean : truthy (prop ({[ "id" := VNum 7 ]} : obj) "error") = false)
    by reflexivity.
  destruct (profile_reaches_its_user reply {| users := [] |} 1
              {[ "acct" := VStr (lit "b@x") ]} {[ "id" := VNum 7 ]}
              eq_refl Hclean) as (Hcall & _ & Husers & _).
  split; [exact Hcall|].
  refine (eq_trans (f_equal (fmap (λ u, prop u "id")) Husers) _).
  vm_compute. reflexivity.
Defined.

(** X9. Replies add up: showing one reply after another is showing
    their concatenation, and an empty reply changes nothing and calls
    nothing. Users shown before are never removed or reordered. *)
Theorem showWhoToFollow_appends (r1 r2 : list obj) (d : data) :
  showWhoToFollow [] d = (d, [])
  ∧ (showWhoToFollow (r1 ++ r2) d).1
    = (showWhoToFollow r2 (showWhoToFollow r1 d).1).1
  ∧ (showWhoToFollow (r1 ++ r2) d).2
    = (showWhoToFollow r1 d).2
      ++ (showWhoToFollow r2 (showWhoToFollow r1 d).1).2
  ∧ users d `prefix_of` users (showWhoToFollow r1 d).1.
Proof.
  split; [by destruct d|]. rewrite !showWhoToFollow_run. cbn [fst snd users].
  split; [by rewrite fmap_app, app_assoc|]. split.
  - rewrite imap_app. f_equal. apply imap_ext. intros k i _. cbn.
    rewrite length_app, length_fmap. f_equal. lia.
  - by eexists.
Qed.

(** X10. Without credentials ([undefined], [null], an empty string)
    [mounted] asks for nothing and the list of users stays as it is;
    with credentials it asks once, and when the reply comes the list
    grows by one user per entry. *)
Theorem suggestions_need_credentials
    (credentials : val) (reply : settled (list obj)) (d : data) :
  let out := suggest_users credentials reply d in
  (truthy credentials = false → out = ([], (d, [])))
  ∧ (truthy credentials = true →
     out.1 = [Call_suggestions credentials]
     ∧ users out.2.1 =
         match reply with
         | Fulfilled entries => users d ++ (make_user <$> entries)
         | _ => users d
         end).
Proof.
  intros out. subst out. unfold suggest_users, mounted, getWhoToFollow.
  split; intros ->; [done|]. split; [done|].
  destruct reply as [entries| |]; [|done..].
  by rewrite showWhoToFollow_run.
Qed.

Lemma suggestions_need_credentials_witness :
  suggest_users VUndefined (Fulfilled [ {[ "acct" := VStr (lit "a@x") ]} ])
    {| users := [] |}
  = ([], ({| users := [] |}, []))
  ∧ length (users (suggest_users (VStr (lit "token"))
                     (Fulfilled [ {[ "acct" := VStr (lit "a@x") ]} ])
                     {| users := [] |}).2.1) = 1%nat.
Proof.
  split.
  - exact (proj1 (suggestions_need_credentials VUndefined
                    (Fulfilled [ {[ "acct" := VStr (lit "a@x") ]} ])
                    {| users := [] |}) eq_refl).
  - destruct (proj2 (suggestions_need_credentials (VStr (lit "token"))
                       (Fulfilled [ {[ "acct" := VStr (lit "a@x") ]} ])
                       {| users := [] |}) eq_refl) as [_ Husers].
    by rewrite Husers.
Defined.

End WhoToFollowMore.
